(** * MungieBot: the pre-buffered streaming playback core of [index.js]

    A shallow embedding of the two pieces of [src/index.js] that carry the
    bot's logic:

    - [createBufferedStream]: the promise that gates playback on the number
      of bytes the transcoder has produced (module [Pipeline]);
    - the per-guild queue kept in the [queues] map, [playSong], the [Idle]
      and [error] listeners it registers on the audio player, and the
      [interactionCreate] handler (module [Bot]);
    - the same handler cut at its [await]s, so that the handlers of several
      requests can be under way at once (module [Overlap]).

    JavaScript runs each callback to completion on one thread, so every
    callback is a function from state to state; what the outside world does
    (bytes arriving, timers firing, yt-search answers, player events) is an
    explicit input. *)

From Stdlib Require Import ZArith Lia Bool String Ascii.
From stdpp Require Import base option list gmap strings.

(** ** The buffering promise of [createBufferedStream] *)

Module Pipeline.

(** The two child processes: [ytdlp] (downloader) and [ffmpeg] (transcoder). *)
Inductive Which := Downloader | Transcoder.

#[global] Instance Which_eq_dec : EqDecision Which.
Proof. solve_decision. Defined.

(** A chunk of transcoder output. The code reads [chunk.length] and hands
    the chunk on to [passThrough] unopened, so a chunk is represented by its
    length in bytes. *)
Record Chunk := mkChunk { chunkLength : N }.

(** What can happen while the promise of lines 103-112 is awaited. *)
Inductive PipeEvent :=
| FfmpegData (chunk : Chunk)            (* ffmpeg.stdout 'data' *)
| FfmpegEnd                             (* ffmpeg.stdout 'end' *)
| ProcError (w : Which) (err : string)  (* 'error' on a child process *)
| Tick.                                 (* the 10 ms timer armed by check *)

Inductive Promise :=
| Pending
| Resolved
| Rejected (reason : string).

#[global] Instance Promise_eq_dec : EqDecision Promise.
Proof. solve_decision. Defined.

(** The local variables of one call: [buffered], the [passThrough] stream
    (the chunks written to it and whether [end()] was called), whether a [setTimeout]
    for [check] is outstanding, and the promise. *)
Record Buffering := mkBuffering {
  buffered : Z;
  passThrough : list Chunk;
  ended : bool;
  polling : bool;
  promise : Promise
}.

(** Settling a promise twice has no effect. *)
Definition resolve (p : Promise) : Promise :=
  match p with Pending => Resolved | _ => p end.

Definition reject (err : string) (p : Promise) : Promise :=
  match p with Pending => Rejected err | _ => p end.

(** [const bufferLimit = bufferSizeMB * 1024 * 1024] *)
Definition bufferLimit (bufferSizeMB : Z) : Z := (bufferSizeMB * 1024 * 1024)%Z.

(** [check]: [if (buffered >= bufferLimit) resolve(); else setTimeout(check, 10)] *)
Definition check (limit : Z) (b : Buffering) : Buffering :=
  if (limit <=? buffered b)%Z
  then mkBuffering (buffered b) (passThrough b) (ended b) false (resolve (promise b))
  else mkBuffering (buffered b) (passThrough b) (ended b) true (promise b).

(** State right after the promise executor ran: [buffered = 0] and [check()]
    was called once. *)
Definition start (limit : Z) : Buffering :=
  check limit (mkBuffering 0 [] false false Pending).

Definition on_event (limit : Z) (b : Buffering) (e : PipeEvent) : Buffering :=
  match e with
  | FfmpegData chunk =>
      (* buffered += chunk.length; passThrough.write(chunk) *)
      mkBuffering (buffered b + Z.of_N (chunkLength chunk))
                  (if ended b then passThrough b else passThrough b ++ [chunk])
                  (ended b) (polling b) (promise b)
  | FfmpegEnd =>
      (* passThrough.end() *)
      mkBuffering (buffered b) (passThrough b) true (polling b) (promise b)
  | ProcError Transcoder err =>
      (* ffmpeg.on("error", reject) *)
      mkBuffering (buffered b) (passThrough b) (ended b) (polling b)
                  (reject err (promise b))
  | ProcError Downloader err =>
      (* ytdlp.on("error", reject) *)
      mkBuffering (buffered b) (passThrough b) (ended b) (polling b)
                  (reject err (promise b))
  | Tick => if polling b then check limit b else b
  end.

Definition run_from (limit : Z) (b : Buffering) (tr : list PipeEvent) : Buffering :=
  fold_left (on_event limit) tr b.

Definition run (limit : Z) (tr : list PipeEvent) : Buffering :=
  run_from limit (start limit) tr.

(** What [await] sees when nothing but timer ticks follows the trace [tr]:
    a promise still pending is resolved by the next [check] if the counter
    has reached the limit, and stays pending forever otherwise. *)
Definition settle (limit : Z) (tr : list PipeEvent) : Promise :=
  let b := run limit tr in
  match promise b with
  | Pending => if (limit <=? buffered b)%Z then Resolved else Pending
  | p => p
  end.

Definition is_error (e : PipeEvent) : bool :=
  match e with ProcError _ _ => true | _ => false end.

(** Bytes the transcoder has emitted along a trace. *)
Definition produced (tr : list PipeEvent) : Z :=
  fold_left (fun n e => match e with
                        | FfmpegData chunk => (n + Z.of_N (chunkLength chunk))%Z
                        | _ => n
                        end) tr 0%Z.

Definition no_errors (tr : list PipeEvent) : bool :=
  forallb (fun e => negb (is_error e)) tr.

(** Two properties of the local state that every event preserves: a pending
    promise has its poll timer armed, and a resolved promise was resolved by
    a [check] that saw the counter at or above the limit. *)
Definition armed (b : Buffering) : Prop := promise b = Pending → polling b = true.

Definition resolved_above (limit : Z) (b : Buffering) : Prop :=
  promise b = Resolved → (limit <= buffered b)%Z.

(** A transcoder that emits 1000 bytes and then ends its output. *)
Definition shortStream : list PipeEvent := [FfmpegData (mkChunk 1000); FfmpegEnd].

(** A transcoder that emits 5 MiB in one chunk. *)
Definition fullStream : list PipeEvent := [FfmpegData (mkChunk 5242880)].

(** *** Streams as sequences of chunks *)

Definition is_data (e : PipeEvent) : bool :=
  match e with FfmpegData _ => true | _ => false end.

Definition is_end (e : PipeEvent) : bool :=
  match e with FfmpegEnd => true | _ => false end.

(** The chunks the transcoder emits along a trace, in order. *)
Definition chunksOf (tr : list PipeEvent) : list Chunk :=
  flat_map (fun e => match e with FfmpegData chunk => [chunk] | _ => [] end) tr.

(** The number of bytes in a sequence of chunks. *)
Definition bytes (l : list Chunk) : Z :=
  fold_right (fun chunk n => (Z.of_N (chunkLength chunk) + n)%Z) 0%Z l.

(** A readable stream emits no ['data'] after its ['end']. *)
Fixpoint wellFormed (tr : list PipeEvent) : bool :=
  match tr with
  | [] => true
  | FfmpegEnd :: tr' => forallb (fun e => negb (is_data e)) tr'
  | _ :: tr' => wellFormed tr'
  end.

(** Every process has failed to start and nothing else happens. *)
Definition bothFail : list PipeEvent :=
  [ProcError Downloader "spawn yt-dlp ENOENT"; ProcError Transcoder "spawn ffmpeg ENOENT"].

(** *** The errors of a process that cannot be started *)




End Pipeline.

(** ** The playback queue: [queues], [playSong] and the command handler *)

Module Bot.
Import Pipeline.

(** [{ ytdlp, ffmpeg }]: the two child-process handles, named by the order in
    which [spawn] created them. *)
Record Proc := mkProc { ytdlp : nat; ffmpeg : nat }.

(** The value [createBufferedStream] returns: [{ proc, stream }]. The
    [PassThrough] object is represented by a token that identifies it. *)
Record Audio := mkAudio { proc : Proc; stream : nat }.

(** A queue entry [{ title, url, buffer }]; [buffer] is unset until a
    pipeline handle is attached. *)
Record Song := mkSong { title : string; url : string; buffer : option Audio }.

(** The audio player: the stream of the resource last handed to
    [player.play] (line 141 makes a new resource object at every call; what
    is recorded is the stream it reads), and how many [once] listeners are
    registered for [AudioPlayerStatus.Idle] and for ["error"]. All listeners
    of one kind on one player are the same closure (lines 145-150, resp.
    152-158), so a count describes them. *)
Record Player := mkPlayer { resource : option nat; idleOnce : nat; errorOnce : nat }.

(** A value of the [queues] map: [{ connection, player, songs, playProcess }]. *)
Record Server := mkServer {
  connection : nat;
  player : Player;
  songs : list Song;
  playProcess : option Proc
}.

(** The program state: the module-level [queues] map and the resources the
    program holds. [running] is the set of child processes that were spawned
    and on which the program has not called [kill]; [connections] the voice
    connections joined and not destroyed; [immediates] the guild ids of the
    pending [setImmediate(() => playSong(guildId))] callbacks, oldest first. *)
Record State := mkState {
  queues : gmap string Server;
  running : gset nat;
  nextPid : nat;
  connections : gset nat;
  nextConn : nat;
  immediates : list string
}.

Definition init : State := mkState ∅ ∅ 0 ∅ 0 [].

(** *** The outside world *)

Record Video := mkVideo { vtitle : string; vurl : string }.

(** An answer of [ytSearch]: it throws, or yields [info]; an [info] without
    [videos] behaves like one with an empty list under the [?.] chains of
    lines 187 and 191. *)
Inductive SearchOutcome :=
| SearchThrew (err : string)
| SearchInfo (videos : list Video).

(** [ytSearch] and, for each URL, what the yt-dlp/ffmpeg pair spawned on it
    does while its buffering promise is awaited. *)
Record World := mkWorld {
  ytSearch : string → SearchOutcome;
  transcoding : string → list PipeEvent
}.

(** How an [await] ends. *)
Inductive Await (A : Type) :=
| Returned (a : A)
| Threw (err : string)
| Hung.
Arguments Returned {A} a.
Arguments Threw {A} err.
Arguments Hung {A}.

(** *** State updates *)

Definition set_queues (q : gmap string Server) (st : State) : State :=
  mkState q (running st) (nextPid st) (connections st) (nextConn st) (immediates st).

Definition set_songs (l : list Song) (server : Server) : Server :=
  mkServer (connection server) (player server) l (playProcess server).

(** [spawn]: a new child process. *)
Definition spawn (st : State) : State * nat :=
  (mkState (queues st) ({[nextPid st]} ∪ running st) (S (nextPid st))
           (connections st) (nextConn st) (immediates st),
   nextPid st).

(** [p.kill()] *)
Definition kill (p : nat) (st : State) : State :=
  mkState (queues st) (running st ∖ {[p]}) (nextPid st)
          (connections st) (nextConn st) (immediates st).

(** [connection.destroy()] *)
Definition destroy (c : nat) (st : State) : State :=
  mkState (queues st) (running st) (nextPid st)
          (connections st ∖ {[c]}) (nextConn st) (immediates st).

(** [setImmediate(() => playSong(guildId))] *)
Definition setImmediate (guildId : string) (st : State) : State :=
  mkState (queues st) (running st) (nextPid st)
          (connections st) (nextConn st) (immediates st ++ [guildId]).

(** *** [createBufferedStream] (lines 68-117) *)

Definition createBufferedStream (w : World) (url : string) (bufferSizeMB : Z)
    (st : State) : State * Await Audio :=
  let '(st1, yt) := spawn st in
  let '(st2, ff) := spawn st1 in
  match settle (bufferLimit bufferSizeMB) (transcoding w url) with
  | Resolved => (st2, Returned (mkAudio (mkProc yt ff) yt))
  | Rejected err => (st2, Threw err)
  | Pending => (st2, Hung)
  end.

(** *** [playSong] (lines 120-159) *)

(** Lines 141-158 once [audio] is known: the head song keeps the handle,
    the player gets the resource, [playProcess] is bound and one listener of
    each kind is added. *)
Definition startPlayback (guildId : string) (server : Server) (song : Song)
    (rest : list Song) (audio : Audio) (st : State) : State :=
  let song' := mkSong (title song) (url song) (Some audio) in
  let player' := mkPlayer (Some (stream audio))
                          (S (idleOnce (player server)))
                          (S (errorOnce (player server))) in
  set_queues (<[guildId := mkServer (connection server) player'
                                    (song' :: rest) (Some (proc audio))]> (queues st)) st.

(** [fuel] bounds the number of nested [playSong] calls. *)
Fixpoint playSong_ (fuel : nat) (w : World) (guildId : string) (st : State)
    : option (State * Await unit) :=
  match fuel with
  | O => None
  | S fuel' =>
      match queues st !! guildId with
      | None =>
          (* !server: nothing to destroy; queues.delete(guildId) *)
          Some (set_queues (delete guildId (queues st)) st, Returned tt)
      | Some server =>
          match songs server with
          | [] =>
              let st1 := destroy (connection server) st in
              Some (set_queues (delete guildId (queues st1)) st1, Returned tt)
          | song :: rest =>
              match buffer song with
              | Some audio =>
                  Some (startPlayback guildId server song rest audio st, Returned tt)
              | None =>
                  match createBufferedStream w (url song) 5 st with
                  | (st1, Returned audio) =>
                      Some (startPlayback guildId server song rest audio st1, Returned tt)
                  | (st1, Threw _) =>
                      (* server.songs.shift(); return playSong(guildId) *)
                      playSong_ fuel' w guildId
                        (set_queues (<[guildId := set_songs rest server]> (queues st1)) st1)
                  | (st1, Hung) => Some (st1, Hung)
                  end
              end
          end
      end
  end.

Definition queueLength (guildId : string) (st : State) : nat :=
  match queues st !! guildId with
  | Some server => length (songs server)
  | None => 0
  end.

(** [playSong] with as many nested calls as the queue can need. *)
Definition playSong (w : World) (guildId : string) (st : State) : State * Await unit :=
  default (st, Hung) (playSong_ (S (queueLength guildId st)) w guildId st).

(** *** The listeners registered by [playSong] *)

(** [try { server.playProcess?.ytdlp?.kill(); } catch {}] and the same for
    [ffmpeg]. *)
Definition killPlayProcess (server : Server) (st : State) : State :=
  match playProcess server with
  | Some p => kill (ffmpeg p) (kill (ytdlp p) st)
  | None => st
  end.

(** The [Idle] listener (lines 145-150). [server] is the object captured by
    the closure; it is the guild's entry of [queues]. *)
Definition onIdle (guildId : string) (st : State) : State :=
  match queues st !! guildId with
  | Some server =>
      let st1 := killPlayProcess server st in
      let st2 := set_queues (<[guildId := set_songs (tail (songs server)) server]>
                               (queues st1)) st1 in
      setImmediate guildId st2
  | None => setImmediate guildId st
  end.

(** The ["error"] listener (lines 152-158). *)
Definition onError (guildId : string) (st : State) : State :=
  match queues st !! guildId with
  | Some server =>
      let st1 := killPlayProcess server st in
      let st2 := set_queues (<[guildId := set_songs (tail (songs server)) server]>
                               (queues st1)) st1 in
      setImmediate guildId st2
  | None => setImmediate guildId st
  end.

Inductive PlayerEvent := Idle | PlayerError.

(** [player.emit(e)]: every [once] listener registered for [e] is removed
    and called. Players of sessions that were removed from [queues] emit
    nothing. *)
Definition emit (guildId : string) (e : PlayerEvent) (st : State) : State :=
  match queues st !! guildId with
  | None => st
  | Some server =>
      let p := player server in
      match e with
      | Idle =>
          let server' := mkServer (connection server)
                           (mkPlayer (resource p) 0 (errorOnce p))
                           (songs server) (playProcess server) in
          Nat.iter (idleOnce p) (onIdle guildId)
                   (set_queues (<[guildId := server']> (queues st)) st)
      | PlayerError =>
          let server' := mkServer (connection server)
                           (mkPlayer (resource p) (idleOnce p) 0)
                           (songs server) (playProcess server) in
          Nat.iter (errorOnce p) (onError guildId)
                   (set_queues (<[guildId := server']> (queues st)) st)
      end
  end.

(** *** The [interactionCreate] handler (lines 164-237) *)

(** What the handler reads from [interaction]: [isChatInputCommand()],
    [commandName], [guildId], [member?.voice?.channel],
    [options.getSubcommand()] and [options.getString("query")]. *)
Record Interaction := mkInteraction {
  isChatInputCommand : bool;
  commandName : string;
  guildId : string;
  voiceChannel : option nat;
  subcommand : string;
  query : string
}.

(** The messages passed to [interaction.reply] / [interaction.editReply]. *)
Inductive Reply :=
| Pong                             (* "Pong!" *)
| Hello                            (* "Hello" *)
| NotInVoiceChannel                (* "You must be in a voice channel." *)
| NoResultsFound                   (* "No results found." *)
| FailedToResolve                  (* "Failed to resolve the query." *)
| NowPlaying (title : string)      (* "Now playing: **title**" *)
| AddedToQueue (title : string)    (* "Added **title** to the queue!" *)
| FailedToPlay                     (* "Failed to play the song." *)
| SongSkipped.                     (* "Song skipped **title**" *)

(** How one run of the handler ends: with a reply, by returning without one,
    with an uncaught [ReferenceError] for an identifier, or never (an
    [await] that does not return). *)
Inductive Outcome :=
| Replied (r : Reply)
| NoReply
| ReferenceError (identifier : string)
| Stuck.

(** [/^(https?:\/\/)?(www\.)?(youtube\.com|youtu\.be)\//i.test(query)]:
    the pattern is anchored at the start only and denotes finitely many
    prefixes; [i] makes the ASCII letters case-insensitive. *)
Definition toLower (c : ascii) : ascii :=
  let n := nat_of_ascii c in
  if (65 <=? n) && (n <=? 90) then ascii_of_nat (n + 32) else c.

Fixpoint lowercase (s : string) : string :=
  match s with
  | EmptyString => EmptyString
  | String c s' => String (toLower c) (lowercase s')
  end.

Definition urlPrefixes : list string :=
  scheme ← ["http://"; "https://"; ""];
  www ← ["www."; ""];
  host ← ["youtube.com"; "youtu.be"];
  [scheme +:+ www +:+ host +:+ "/"].

Definition isUrl (q : string) : bool :=
  existsb (fun p => String.prefix p (lowercase q)) urlPrefixes.

(** [info?.videos?.[0]?.title || query] *)
Definition titleOr (videos : list Video) (q : string) : string :=
  match videos with
  | v :: _ => if String.eqb (vtitle v) "" then q else vtitle v
  | [] => q
  end.

(** Lines 204-229: the song, with its buffer, goes to a new session or to
    the tail of the existing one. *)
Definition enqueue (w : World) (guildId : string) (song : Song) (st : State)
    : State * Outcome :=
  match queues st !! guildId with
  | None =>
      let conn := nextConn st in
      let server := mkServer conn (mkPlayer None 0 0) [song] None in
      let st1 := mkState (<[guildId := server]> (queues st)) (running st) (nextPid st)
                         ({[conn]} ∪ connections st) (S (nextConn st)) (immediates st) in
      match playSong w guildId st1 with
      | (st2, Returned _) => (st2, Replied (NowPlaying (title song)))
      | (st2, Threw _) =>
          let st3 := set_queues (delete guildId (queues st2)) st2 in
          (destroy conn st3, Replied FailedToPlay)
      | (st2, Hung) => (st2, Stuck)
      end
  | Some server =>
      (set_queues (<[guildId := set_songs (songs server ++ [song]) server]> (queues st)) st,
       Replied (AddedToQueue (title song)))
  end.

(** Line 197 and what follows it. *)
Definition bufferAndEnqueue (w : World) (guildId : string) (t u : string) (st : State)
    : State * Outcome :=
  match createBufferedStream w u 5 st with
  | (st1, Returned audio) => enqueue w guildId (mkSong t u (Some audio)) st1
  | (st1, Threw _) => (st1, Replied FailedToResolve)
  | (st1, Hung) => (st1, Stuck)
  end.

(** Lines 183-194: what the search makes of the query. A thrown search
    error lands in the [catch] of line 199; an empty result is an early
    return on the search branch only. *)
Inductive Resolution :=
| Found (title url : string)
| NoResults
| SearchFailed.

Definition resolveSong (w : World) (q : string) : Resolution :=
  if isUrl q then
    match ytSearch w q with
    | SearchThrew _ => SearchFailed
    | SearchInfo videos => Found (titleOr videos q) q
    end
  else
    match ytSearch w q with
    | SearchThrew _ => SearchFailed
    | SearchInfo [] => NoResults
    | SearchInfo (v :: _) => Found (vtitle v) (vurl v)
    end.

(** The [play] subcommand (lines 175-230). *)
Definition play (w : World) (i : Interaction) (st : State) : State * Outcome :=
  match voiceChannel i with
  | None => (st, Replied NotInVoiceChannel)
  | Some _ =>
      match resolveSong w (query i) with
      | Found t u => bufferAndEnqueue w (guildId i) t u st
      | NoResults => (st, Replied NoResultsFound)
      | SearchFailed => (st, Replied FailedToResolve)
      end
  end.

(** Identifiers bound at module level: the imports and the top-level
    [const] and [function] declarations. *)
Definition moduleScope : list string :=
  ["dotenv"; "spawn"; "Client"; "GatewayIntentBits"; "REST"; "Routes";
   "joinVoiceChannel"; "createAudioPlayer"; "createAudioResource";
   "AudioPlayerStatus"; "StreamType"; "ytSearch"; "PassThrough";
   "TOKEN"; "CLIENT_ID"; "GUILD_ID"; "client"; "queues"; "commands"; "rest";
   "registerCommands"; "createBufferedStream"; "playSong"].

(** Globals of the runtime that the file uses. *)
Definition globalScope : list string :=
  ["process"; "console"; "Map"; "Promise"; "Date"; "setTimeout"; "setImmediate"].

(** The declarations of each block around the [skip] branch, innermost
    first. [song], [query] and [isUrl] are declared with [let]/[const] in the
    block of [if (sub === "play")], which is closed before line 232. *)
Definition playBlock : list string := ["song"; "query"; "isUrl"].

Definition skipScope : list (list string) :=
  [ [];                                                (* if (sub === "skip") { } *)
    ["sub"; "voiceChannel"];                           (* if (commandName === "music") { } *)
    ["commandName"; "guildId"; "member"; "options"];   (* the handler's body *)
    ["interaction"];                                   (* its parameter *)
    moduleScope;
    globalScope ].

Definition inScope (scope : list (list string)) (x : string) : bool :=
  existsb (fun block => bool_decide (x ∈ block)) scope.

(** The [skip] subcommand (lines 232-234): the template literal evaluates
    [song.title]. *)
Definition skip (st : State) : State * Outcome :=
  if inScope skipScope "song"
  then (st, Replied SongSkipped)
  else (st, ReferenceError "song").

Definition interactionCreate (w : World) (i : Interaction) (st : State)
    : State * Outcome :=
  if negb (isChatInputCommand i) then (st, NoReply)
  else if String.eqb (commandName i) "ping" then (st, Replied Pong)
  else if String.eqb (commandName i) "hello" then (st, Replied Hello)
  else if String.eqb (commandName i) "music" then
    if String.eqb (subcommand i) "play" then play w i st
    else if String.eqb (subcommand i) "skip" then skip st
    else (st, NoReply)
  else (st, NoReply).

(** *** The event loop *)

Inductive Event :=
| Command (i : Interaction)                          (* a chat command arrives *)
| PlayerEmits (guildId : string) (e : PlayerEvent)   (* a guild's player emits *)
| RunImmediate.                                      (* the oldest setImmediate callback runs *)

Definition step (w : World) (st : State) (ev : Event) : State :=
  match ev with
  | Command i => fst (interactionCreate w i st)
  | PlayerEmits g e => emit g e st
  | RunImmediate =>
      match immediates st with
      | [] => st
      | g :: rest =>
          fst (playSong w g (mkState (queues st) (running st) (nextPid st)
                                     (connections st) (nextConn st) rest))
      end
  end.

Definition exec (w : World) (evs : list Event) : State :=
  fold_left (step w) evs init.

Definition reachable (w : World) (st : State) : Prop :=
  ∃ evs, exec w evs = st.

(** *** Sample worlds and commands *)

(** Every search finds one video and every pipeline buffers 5 MiB. *)
Definition demoWorld : World :=
  mkWorld (fun q => SearchInfo [mkVideo q ("https://youtu.be/" +:+ q)])
          (fun _ => fullStream).

(** Every search comes back empty; pipelines buffer 5 MiB. *)
Definition emptySearchWorld : World :=
  mkWorld (fun _ => SearchInfo []) (fun _ => fullStream).

(** Every pipeline fails to start. *)
Definition failingWorld : World :=
  mkWorld (fun q => SearchInfo [mkVideo q q])
          (fun _ => [ProcError Downloader "spawn yt-dlp ENOENT"]).

(** [/music play query] sent in guild [g] by a member of voice channel 1. *)
Definition playCommand (g q : string) : Interaction :=
  mkInteraction true "music" g (Some 1) "play" q.

(** [/music skip] in guild [g]. *)
Definition skipCommand (g : string) : Interaction :=
  mkInteraction true "music" g (Some 1) "skip" "".

(** A song whose pipeline is started by [playSong] and fails there. *)
Definition failsToStart (w : World) (song : Song) : Prop :=
  buffer song = None ∧
  ∃ err, settle (bufferLimit 5) (transcoding w (url song)) = Rejected err.

(** A session whose two songs have no buffer yet. *)
Definition unbufferedQueue : State :=
  mkState {[ "G"%string := mkServer 0 (mkPlayer None 0 0)
                             [mkSong "a" "a" None; mkSong "b" "b" None] None ]}
          ∅ 0 {[0]} 1 [].

(** Three songs are enqueued in guild G; the first ends, the second is
    started and then fails during playback. *)
Definition threeSongs : list Event :=
  [Command (playCommand "G" "a"); Command (playCommand "G" "b");
   Command (playCommand "G" "c")].

Definition endThenError : list Event :=
  [PlayerEmits "G" Idle; RunImmediate; PlayerEmits "G" PlayerError].

(** *** Process ownership *)

(** The processes a queue entry holds through its [buffer]. *)
Definition songPids (song : Song) : list nat :=
  match buffer song with
  | Some audio => [ytdlp (proc audio); ffmpeg (proc audio)]
  | None => []
  end.

(** Process [pid] belongs to the song at position [k] of guild [g]'s queue. *)
Definition owns (st : State) (g : string) (k : nat) (pid : nat) : Prop :=
  ∃ server song,
    queues st !! g = Some server ∧ songs server !! k = Some song ∧ pid ∈ songPids song.

(** What holds of every state the event loop can reach: queued songs have
    their buffer; processes of queued songs and bound pairs were spawned
    before; no process belongs to two queue positions; a bound pair is never
    the pair of a song that waits behind a head; the processes of waiting
    songs have not been killed. *)
Record Consistent (st : State) : Prop := mkConsistent {
  cons_buffered : ∀ g server song,
    queues st !! g = Some server → song ∈ songs server → is_Some (buffer song);
  cons_fresh : ∀ g k pid, owns st g k pid → pid < nextPid st;
  cons_bound_fresh : ∀ g server p,
    queues st !! g = Some server → playProcess server = Some p →
    ytdlp p < nextPid st ∧ ffmpeg p < nextPid st;
  cons_distinct : ∀ g1 k1 g2 k2 pid,
    owns st g1 k1 pid → owns st g2 k2 pid → g1 = g2 ∧ k1 = k2;
  cons_bound_apart : ∀ g server p g' k pid,
    queues st !! g = Some server → playProcess server = Some p →
    owns st g' (S k) pid → pid ≠ ytdlp p ∧ pid ≠ ffmpeg p;
  cons_waiting_live : ∀ g k pid, owns st g (S k) pid → pid ∈ running st
}.

(** *** The registered commands (lines 33-53) *)

(** A subcommand (an option of type 1) with the names of its own options. *)
Record Subcommand := mkSubcommand { subName : string; subOptions : list string }.

Record SlashCommand := mkSlashCommand { cmdName : string; cmdOptions : list Subcommand }.

Definition commands : list SlashCommand :=
  [ mkSlashCommand "ping" [];
    mkSlashCommand "hello" [];
    mkSlashCommand "music"
      [ mkSubcommand "play" ["query"];
        mkSubcommand "skip" [];
        mkSubcommand "stop" [];
        mkSubcommand "queue" [];
        mkSubcommand "pause" [];
        mkSubcommand "resume" [] ] ].

(** *** Runs of the event loop *)

Definition execFrom (w : World) (st : State) (evs : list Event) : State :=
  fold_left (step w) evs st.

(** The guild whose session an event works on. *)
Definition eventGuild (st : State) (ev : Event) : option string :=
  match ev with
  | Command i => Some (guildId i)
  | PlayerEmits g _ => Some g
  | RunImmediate => head (immediates st)
  end.

(** Play requests for the queries [qs], in order, all in guild [g]. *)
Definition plays (g : string) (qs : list string) : list Event :=
  map (fun q => Command (playCommand g q)) qs.

(** The current song of guild [g] ends and the scheduled [playSong] runs. *)
Definition completion (g : string) : list Event := [PlayerEmits g Idle; RunImmediate].

Definition completions (g : string) (k : nat) : list Event :=
  concat (replicate k (completion g)).

(** A query whose search yields a song and whose pipeline buffers. *)
Definition playable (w : World) (q : string) : Prop :=
  ∃ t u, resolveSong w q = Found t u ∧
         settle (bufferLimit 5) (transcoding w u) = Resolved.

(** The queue entry the play handler builds for [q] when the two processes
    it spawns are [pid] and [pid + 1]. *)
Definition songFor (w : World) (q : string) (pid : nat) : Song :=
  match resolveSong w q with
  | Found t u => mkSong t u (Some (mkAudio (mkProc pid (S pid)) pid))
  | _ => mkSong q q None
  end.

(** The state in which guild [g] alone has a session, the queries [qs] were
    requested in this order from the initial state, and the first [k] songs
    have ended: song [k] is playing, its pair is bound, the processes of the
    songs before it are gone and those of the songs from [k] on are running. *)
Definition playingState (w : World) (g : string) (qs : list string) (k : nat) : State :=
  mkState {[ g := mkServer 0 (mkPlayer (Some (2 * k)) 1 (S k))
                    (drop k (imap (fun i q => songFor w q (2 * i)) qs))
                    (Some (mkProc (2 * k) (S (2 * k)))) ]}
          (set_seq (2 * k) (2 * (length qs - k)))
          (2 * length qs) {[0]} 1 [].

(** The state after the last of these songs has ended. *)
Definition finishedState (qs : list string) : State :=
  mkState ∅ ∅ (2 * length qs) ∅ 1 [].

(** *** Orphaned processes *)

(** A running process that no queued song holds and no session has bound. *)
Definition orphaned (st : State) (pid : nat) : Prop :=
  pid ∈ running st ∧ pid < nextPid st ∧
  (∀ g k, ¬ owns st g k pid) ∧
  (∀ g server p, queues st !! g = Some server → playProcess server = Some p →
                 pid ≠ ytdlp p ∧ pid ≠ ffmpeg p).

(** A session with an empty queue has its teardown scheduled. *)
Definition teardownPending (st : State) : Prop :=
  ∀ g server, queues st !! g = Some server → songs server = [] → g ∈ immediates st.

(** What [kill] leaves of the running processes once the bound pair is
    killed. *)
Definition withoutBound (server : Server) (r : gset nat) : gset nat :=
  match playProcess server with
  | Some p => r ∖ {[ytdlp p]} ∖ {[ffmpeg p]}
  | None => r
  end.


End Bot.

(** ** Play handlers that overlap

    The play handler gives up control at its [await]s (lines 177, 186/190
    and 197), so the handlers of several requests can be under way at the
    same time. Nothing of the program state is read or written before the
    search has returned; after it, the handler spawns the two processes and
    waits for the pre-buffer, and only when that wait is over does it touch
    [queues]. This event loop lets other callbacks run while handlers wait. *)

Module Overlap.
Import Pipeline Bot.

(** A play handler suspended at the [await] of line 197. It has built
    [song] from the search (lines 187-193) and called
    [createBufferedStream], which has spawned the two processes; [wAudio]
    is the handle that call returns when its promise resolves. *)
Record Waiting := mkWaiting {
  wGuild : string;
  wTitle : string;
  wUrl : string;
  wAudio : Audio
}.

(** The program state and the handlers that wait. *)
Record Loop := mkLoop { base : State; waiting : list Waiting }.

Inductive Event :=
| Searched (i : Interaction)             (* a handler runs up to line 197, or to its reply *)
| Buffered (n : nat)                     (* the wait of the n-th waiting handler is over *)
| Emits (g : string) (e : PlayerEvent)   (* a guild's player emits *)
| Immediate.                             (* the oldest setImmediate callback runs *)

Definition isPlay (i : Interaction) : bool :=
  isChatInputCommand i && String.eqb (commandName i) "music"
  && String.eqb (subcommand i) "play".

(** A play handler from its start to the call of line 197: when the member
    is in a voice channel and the search yields a song, the two processes
    are spawned and the handler waits. Every other interaction is handled
    in one go. *)
Definition searched (w : World) (i : Interaction) (l : Loop) : Loop :=
  if isPlay i then
    match voiceChannel i with
    | None => l
    | Some _ =>
        match resolveSong w (query i) with
        | Found t u =>
            let '(st1, yt) := spawn (base l) in
            let '(st2, ff) := spawn st1 in
            mkLoop st2 (waiting l ++
                        [mkWaiting (guildId i) t u (mkAudio (mkProc yt ff) yt)])
        | NoResults => l
        | SearchFailed => l
        end
    end
  else mkLoop (fst (interactionCreate w i (base l))) (waiting l).

(** The wait of line 197 is over for the [n]-th waiting handler: with the
    handle it goes on to lines 204-229, with an error to the [catch] of
    line 199. A promise that stays pending keeps its handler waiting. *)
Definition resumed (w : World) (n : nat) (l : Loop) : Loop :=
  match waiting l !! n with
  | None => l
  | Some h =>
      match settle (bufferLimit 5) (transcoding w (wUrl h)) with
      | Resolved =>
          mkLoop (fst (enqueue w (wGuild h)
                         (mkSong (wTitle h) (wUrl h) (Some (wAudio h))) (base l)))
                 (delete n (waiting l))
      | Rejected _ => mkLoop (base l) (delete n (waiting l))
      | Pending => l
      end
  end.

Definition step (w : World) (l : Loop) (ev : Event) : Loop :=
  match ev with
  | Searched i => searched w i l
  | Buffered n => resumed w n l
  | Emits g e => mkLoop (Bot.step w (base l) (PlayerEmits g e)) (waiting l)
  | Immediate => mkLoop (Bot.step w (base l) RunImmediate) (waiting l)
  end.

Definition initial : Loop := mkLoop init [].

Definition execFrom (w : World) (l : Loop) (evs : list Event) : Loop :=
  fold_left (step w) evs l.

Definition reachable (w : World) (l : Loop) : Prop :=
  ∃ evs, execFrom w initial evs = l.

(** The processes a waiting handler will get from its call. *)
Definition holds (h : Waiting) (pid : nat) : Prop :=
  pid = ytdlp (proc (wAudio h)) ∨ pid = ffmpeg (proc (wAudio h)).

(** A running process that no queued song holds, no session has bound and
    no waiting handler is going to receive. *)
Definition unreferenced (l : Loop) (pid : nat) : Prop :=
  orphaned (base l) pid ∧ ∀ h, h ∈ waiting l → ¬ holds h pid.

(** Every queued song has its buffer. *)
Definition allBuffered (st : State) : Prop :=
  ∀ g server song,
    queues st !! g = Some server → song ∈ songs server → is_Some (buffer song).

End Overlap.

(** ** Facts about the buffering promise *)

Section PipelineFacts.
Import Pipeline.

Variable limit : Z.

Lemma run_from_app b tr1 tr2 :
  run_from limit b (tr1 ++ tr2) = run_from limit (run_from limit b tr1) tr2.
Proof. unfold run_from. apply fold_left_app. Qed.

Lemma run_app tr1 tr2 :
  run limit (tr1 ++ tr2) = run_from limit (run limit tr1) tr2.
Proof. apply run_from_app. Qed.

Lemma run_snoc tr e : run limit (tr ++ [e]) = on_event limit (run limit tr) e.
Proof. by rewrite run_app. Qed.

(** The counter never decreases. *)
Lemma buffered_on_event b e : (buffered b <= buffered (on_event limit b e))%Z.
Proof.
  destruct e as [chunk| |[] err|]; simpl; try lia.
  destruct (polling b); [|lia]. unfold check. destruct (limit <=? buffered b)%Z; simpl; lia.
Qed.

Lemma buffered_run_from tr b : (buffered b <= buffered (run_from limit b tr))%Z.
Proof.
  revert b. induction tr as [|e tr IH]; intros b; simpl; [lia|].
  etrans; [apply (buffered_on_event b e)|apply IH].
Qed.

Lemma armed_start : armed (start limit).
Proof. unfold armed, start, check. simpl. destruct (limit <=? 0)%Z; simpl; done. Qed.

Lemma armed_on_event b e : armed b → armed (on_event limit b e).
Proof.
  unfold armed. destruct e as [chunk| |[] err|]; simpl; try done.
  - destruct (promise b); simpl; naive_solver.
  - destruct (promise b); simpl; naive_solver.
  - destruct (polling b) eqn:Hp; [|naive_solver].
    unfold check. destruct (limit <=? buffered b)%Z; simpl; [|done].
    destruct (promise b); simpl; naive_solver.
Qed.

Lemma armed_run_from tr b : armed b → armed (run_from limit b tr).
Proof.
  revert b. induction tr as [|e tr IH]; intros b Hb; simpl; [done|].
  apply IH, armed_on_event, Hb.
Qed.

Lemma armed_run tr : armed (run limit tr).
Proof. apply armed_run_from, armed_start. Qed.

Lemma resolved_above_start : resolved_above limit (start limit).
Proof.
  unfold resolved_above, start, check. simpl.
  destruct (limit <=? 0)%Z eqn:E; simpl; [lia|done].
Qed.

Lemma resolved_above_on_event b e :
  resolved_above limit b → resolved_above limit (on_event limit b e).
Proof.
  unfold resolved_above. destruct e as [chunk| |[] err|]; simpl; try done.
  - intros H1 H2. specialize (H1 H2). lia.
  - destruct (promise b); simpl; naive_solver.
  - destruct (promise b); simpl; naive_solver.
  - destruct (polling b); [|done].
    unfold check. destruct (limit <=? buffered b)%Z eqn:E; simpl; [lia|done].
Qed.

Lemma resolved_above_run tr : resolved_above limit (run limit tr).
Proof.
  unfold run. generalize (start limit) resolved_above_start.
  induction tr as [|e tr IH]; intros b Hb; simpl; [done|].
  apply IH, resolved_above_on_event, Hb.
Qed.

(** [buffered] counts exactly the bytes the transcoder produced. *)
Lemma produced_from tr n :
  fold_left (fun n e => match e with
                        | FfmpegData chunk => (n + Z.of_N (chunkLength chunk))%Z
                        | _ => n
                        end) tr n
  = (n + produced tr)%Z.
Proof.
  unfold produced. revert n. induction tr as [|e tr IH]; intros n; simpl; [lia|].
  rewrite IH. rewrite (IH (match e with FfmpegData chunk => _ | _ => 0%Z end)).
  destruct e; lia.
Qed.

Lemma produced_cons e tr :
  produced (e :: tr)
  = (match e with FfmpegData chunk => Z.of_N (chunkLength chunk) | _ => 0 end
     + produced tr)%Z.
Proof.
  unfold produced at 1. simpl. rewrite produced_from. destruct e; lia.
Qed.

Lemma produced_app tr1 tr2 : produced (tr1 ++ tr2) = (produced tr1 + produced tr2)%Z.
Proof.
  induction tr1 as [|e tr1 IH]; simpl; [done|].
  rewrite !produced_cons, IH. lia.
Qed.

Lemma produced_nonneg tr : (0 <= produced tr)%Z.
Proof. induction tr as [|e tr IH]; [done|]. rewrite produced_cons. destruct e; lia. Qed.

Lemma buffered_on_event_eq b e :
  buffered (on_event limit b e)
  = (buffered b + match e with FfmpegData chunk => Z.of_N (chunkLength chunk) | _ => 0 end)%Z.
Proof.
  destruct e as [chunk| |[] err|]; simpl; try lia.
  destruct (polling b); [|lia]. unfold check. destruct (limit <=? buffered b)%Z; simpl; lia.
Qed.

Lemma buffered_run_from_eq tr b :
  buffered (run_from limit b tr) = (buffered b + produced tr)%Z.
Proof.
  revert b. induction tr as [|e tr IH]; intros b; simpl.
  - unfold produced. simpl. lia.
  - rewrite IH, buffered_on_event_eq, produced_cons. lia.
Qed.

Lemma buffered_start : buffered (start limit) = 0%Z.
Proof. unfold start, check. simpl. by destruct (limit <=? 0)%Z. Qed.

Lemma buffered_run tr : buffered (run limit tr) = produced tr.
Proof. unfold run. rewrite buffered_run_from_eq, buffered_start. lia. Qed.

(** Once settled, a promise keeps its state. *)
Lemma resolved_on_event b e :
  promise b = Resolved → promise (on_event limit b e) = Resolved.
Proof.
  intros H. destruct e as [chunk| |[] err|]; simpl; rewrite ?H; try done.
  destruct (polling b); [|done]. unfold check.
  destruct (limit <=? buffered b)%Z; simpl; by rewrite ?H.
Qed.

Lemma rejected_on_event b e err :
  promise b = Rejected err → promise (on_event limit b e) = Rejected err.
Proof.
  intros H. destruct e as [chunk| |[] err'|]; simpl; rewrite ?H; try done.
  destruct (polling b); [|done]. unfold check.
  destruct (limit <=? buffered b)%Z; simpl; by rewrite ?H.
Qed.

Lemma resolved_run_from tr b :
  promise b = Resolved → promise (run_from limit b tr) = Resolved.
Proof.
  revert b. induction tr as [|e tr IH]; intros b H; simpl; [done|].
  by apply IH, resolved_on_event.
Qed.

Lemma rejected_run_from tr b err :
  promise b = Rejected err → promise (run_from limit b tr) = Rejected err.
Proof.
  revert b. induction tr as [|e tr IH]; intros b H; simpl; [done|].
  by apply IH, rejected_on_event.
Qed.

(** Only a process error rejects. *)
Lemma not_rejected_run_from tr b err :
  no_errors tr = true →
  (∀ err', promise b ≠ Rejected err') →
  promise (run_from limit b tr) ≠ Rejected err.
Proof.
  revert b. induction tr as [|e tr IH]; intros b Hne Hb; simpl; [done|].
  simpl in Hne. apply andb_prop in Hne as [He Htr].
  apply IH; [done|]. intros err'.
  destruct e as [chunk| |[] ?|]; simpl in *; try done.
  destruct (polling b); [|done]. unfold check.
  destruct (limit <=? buffered b)%Z; simpl; [|done].
  specialize (Hb err'). destruct (promise b); simpl; congruence.
Qed.

Lemma not_rejected_run tr err :
  no_errors tr = true → promise (run limit tr) ≠ Rejected err.
Proof.
  intros H. apply not_rejected_run_from; [done|].
  intros err'. unfold start, check. simpl. by destruct (limit <=? 0)%Z.
Qed.

(** Below the limit and without a process error the promise is pending. *)
Lemma pending_below tr :
  no_errors tr = true → (produced tr < limit)%Z → promise (run limit tr) = Pending.
Proof.
  intros Hne Hlt.
  pose proof (resolved_above_run tr) as Hres. unfold resolved_above in Hres.
  rewrite buffered_run in Hres.
  pose proof (not_rejected_run tr) as Hrej.
  destruct (promise (run limit tr)) as [| |err]; [done|specialize (Hres eq_refl); lia|].
  by destruct (Hrej err).
Qed.

(** A poll that finds the counter at the limit resolves a pending promise. *)
Lemma tick_resolves tr :
  promise (run limit tr) = Pending → (limit <= produced tr)%Z →
  promise (run limit (tr ++ [Tick])) = Resolved.
Proof.
  intros Hp Hge. rewrite run_snoc. simpl.
  rewrite (armed_run tr Hp). unfold check. rewrite buffered_run.
  destruct (limit <=? produced tr)%Z eqn:E; [|lia]. simpl. by rewrite Hp.
Qed.

(** A poll below the limit leaves things as they are. *)
Lemma tick_below b :
  (buffered b < limit)%Z → polling b = true → on_event limit b Tick = b.
Proof.
  intros Hlt Hp. simpl. rewrite Hp. unfold check.
  destruct (limit <=? buffered b)%Z eqn:E; [lia|]. destruct b; simpl in *; by subst.
Qed.

Lemma ticks_below n tr :
  promise (run limit tr) = Pending → (produced tr < limit)%Z →
  run limit (tr ++ repeat Tick n) = run limit tr.
Proof.
  intros Hp Hlt. induction n as [|n IH]; simpl.
  - by rewrite app_nil_r.
  - rewrite repeat_cons, app_assoc, run_snoc, IH.
    apply tick_below; [rewrite buffered_run; lia|by apply armed_run].
Qed.

(** [settle] is what any positive number of further polls yields. *)
Lemma settle_ticks tr n :
  promise (run limit (tr ++ repeat Tick (S n))) = settle limit tr.
Proof.
  unfold settle. rewrite buffered_run.
  destruct (promise (run limit tr)) as [| |err] eqn:Hp.
  - destruct (limit <=? produced tr)%Z eqn:E.
    + simpl. change (Tick :: repeat Tick n) with ([Tick] ++ repeat Tick n).
      rewrite app_assoc, run_app. apply resolved_run_from, tick_resolves; [done|lia].
    + rewrite ticks_below; [done..|lia].
  - rewrite run_app. by apply resolved_run_from.
  - rewrite run_app. by apply rejected_run_from.
Qed.


End PipelineFacts.

(** ** [createBufferedStream]: when the promise settles *)

Section Buffering.
Import Pipeline Bot.

(** The call returns, throws or hangs as its promise settles. *)
Lemma createBufferedStream_settle w u mb st :
  snd (createBufferedStream w u mb st)
  = match settle (bufferLimit mb) (transcoding w u) with
    | Resolved => Returned (mkAudio (mkProc (nextPid st) (S (nextPid st))) (nextPid st))
    | Rejected err => Threw err
    | Pending => Hung
    end.
Proof. unfold createBufferedStream. simpl. by destruct (settle _ _). Qed.

(** C1, as stated, fails: a stream that ends below the limit of 5 MiB
    leaves the promise pending, before and after any further poll, so the
    [await] of line 103 does not return. *)
Lemma short_stream_stays_pending :
  FfmpegEnd ∈ shortStream ∧
  no_errors shortStream = true ∧
  promise (run (bufferLimit 5) shortStream) = Pending ∧
  promise (run (bufferLimit 5) (shortStream ++ [Tick; Tick; Tick])) = Pending ∧
  settle (bufferLimit 5) shortStream = Pending ∧
  snd (createBufferedStream (mkWorld (fun _ => SearchInfo []) (fun _ => shortStream))
         "https://youtu.be/x" 5 init) = Hung.
Proof. split; [apply list_elem_of_further, list_elem_of_here|]. by vm_compute. Qed.

(** The same holds after any number of polls. *)
Lemma short_stream_never_resolves n :
  promise (run (bufferLimit 5) (shortStream ++ repeat Tick n)) = Pending.
Proof. rewrite ticks_below; by vm_compute. Qed.

(** C1, amended: without a process error, the promise is resolved only once
    the byte counter has reached the limit; the first poll that follows
    resolves it and the call returns its handle; the transcoder's
    end-of-stream below the limit ends the pass-through stream and leaves
    the promise pending. *)
Theorem createBufferedStream_resolves_at_poll (bufferSizeMB : Z) (tr : list PipeEvent) :
  no_errors tr = true →
  let limit := bufferLimit bufferSizeMB in
  (promise (run limit tr) = Resolved → (limit <= produced tr)%Z) ∧
  ((limit <= produced tr)%Z →
     promise (run limit (tr ++ [Tick])) = Resolved ∧
     ∀ w u st, transcoding w u = tr →
       snd (createBufferedStream w u bufferSizeMB st)
       = Returned (mkAudio (mkProc (nextPid st) (S (nextPid st))) (nextPid st))) ∧
  ((produced tr < limit)%Z →
     promise (run limit tr) = Pending ∧
     promise (run limit (tr ++ [FfmpegEnd])) = Pending ∧
     ended (run limit (tr ++ [FfmpegEnd])) = true).
Proof.
  intros Hne limit. split; [|split].
  - intros H. rewrite <- (buffered_run limit tr). by apply resolved_above_run.
  - intros Hge.
    assert (promise (run limit (tr ++ [Tick])) = Resolved) as Hres.
    { destruct (promise (run limit tr)) as [| |err] eqn:Hp.
      - by apply tick_resolves.
      - rewrite run_app. by apply resolved_run_from.
      - by destruct (not_rejected_run limit tr err). }
    split; [done|]. intros w u st Htr.
    pose proof (settle_ticks limit tr 0) as Ht. simpl in Ht. subst limit.
    by rewrite createBufferedStream_settle, Htr, <- Ht, Hres.
  - intros Hlt. split; [by apply pending_below|]. split.
    + apply pending_below.
      * unfold no_errors in *. rewrite forallb_app, Hne. done.
      * rewrite produced_app. unfold produced at 2. simpl. lia.
    + by rewrite run_snoc.
Qed.

Lemma createBufferedStream_resolves_at_poll_witness :
  no_errors fullStream = true ∧
  promise (run (bufferLimit 5) (fullStream ++ [Tick])) = Resolved ∧
  snd (createBufferedStream demoWorld "https://youtu.be/a" 5 init)
  = Returned (mkAudio (mkProc 0 1) 0).
Proof.
  split; [reflexivity|].
  destruct (createBufferedStream_resolves_at_poll 5 fullStream eq_refl) as (_ & H & _).
  destruct H as [H1 H2]; [by vm_compute|].
  split; [exact H1|]. exact (H2 demoWorld "https://youtu.be/a"%string init eq_refl).
Defined.





End Buffering.

(** ** The command handler *)

Section Handler.
Import Pipeline Bot.

Variable w : World.

Lemma createBufferedStream_resolved u st :
  settle (bufferLimit 5) (transcoding w u) = Resolved →
  createBufferedStream w u 5 st
  = (mkState (queues st) ({[S (nextPid st)]} ∪ ({[nextPid st]} ∪ running st))
             (S (S (nextPid st))) (connections st) (nextConn st) (immediates st),
     Returned (mkAudio (mkProc (nextPid st) (S (nextPid st))) (nextPid st))).
Proof. intros H. unfold createBufferedStream. simpl. by rewrite H. Qed.

Lemma createBufferedStream_rejected u st err :
  settle (bufferLimit 5) (transcoding w u) = Rejected err →
  createBufferedStream w u 5 st
  = (mkState (queues st) ({[S (nextPid st)]} ∪ ({[nextPid st]} ∪ running st))
             (S (S (nextPid st))) (connections st) (nextConn st) (immediates st),
     Threw err).
Proof. intros H. unfold createBufferedStream. simpl. by rewrite H. Qed.

(** [playSong] on a head that already has its buffer starts it at once. *)
Lemma playSong_buffered g st server song rest audio :
  queues st !! g = Some server → songs server = song :: rest →
  buffer song = Some audio →
  playSong w g st = (startPlayback g server song rest audio st, Returned tt).
Proof.
  intros Hq Hs Hb. unfold playSong, queueLength. rewrite Hq, Hs. simpl.
  by rewrite Hq, Hs, Hb.
Qed.

Lemma music_play i st :
  isChatInputCommand i = true → commandName i = "music"%string →
  subcommand i = "play"%string →
  interactionCreate w i st = play w i st.
Proof. intros H1 H2 H3. unfold interactionCreate. by rewrite H1, H2, H3. Qed.

Lemma enqueue_reply g song st : snd (enqueue w g song st) ≠ Replied NoResultsFound.
Proof.
  unfold enqueue. destruct (queues st !! g); [done|].
  destruct (playSong w g _) as [st2 [[]| |]]; done.
Qed.

Lemma bufferAndEnqueue_reply g t u st :
  snd (bufferAndEnqueue w g t u st) ≠ Replied NoResultsFound.
Proof.
  unfold bufferAndEnqueue. destruct (createBufferedStream w u 5 st) as [st1 [a| |]]; [|done..].
  apply enqueue_reply.
Qed.

(** C9: every run of the [skip] branch evaluates [song], which no enclosing
    scope declares, so the handler ends with a [ReferenceError] and leaves
    the state, queue included, as it was. *)
Theorem skip_raises_reference_error (i : Interaction) (st : State) :
  isChatInputCommand i = true → commandName i = "music"%string →
  subcommand i = "skip"%string →
  inScope skipScope "song" = false ∧
  "song"%string ∈ playBlock ∧
  interactionCreate w i st = (st, ReferenceError "song").
Proof.
  intros H1 H2 H3. split; [by vm_compute|]. split; [apply list_elem_of_here|].
  unfold interactionCreate. rewrite H1, H2, H3. reflexivity.
Qed.

(** C7, amended: a play request whose query is not a YouTube link and for
    which the search returns no video is answered with an error message
    and leaves the whole state, the queue map included, unchanged. *)
Theorem no_results_leaves_state (i : Interaction) (st : State) :
  isChatInputCommand i = true → commandName i = "music"%string →
  subcommand i = "play"%string →
  isUrl (query i) = false →
  ytSearch w (query i) = SearchInfo [] →
  interactionCreate w i st
  = (st, Replied (match voiceChannel i with
                  | Some _ => NoResultsFound
                  | None => NotInVoiceChannel
                  end)).
Proof.
  intros H1 H2 H3 Hurl Hs. rewrite music_play by done.
  unfold play, resolveSong. rewrite Hurl, Hs. by destruct (voiceChannel i).
Qed.

(** C10: for a query that matches the YouTube pattern the handler never
    answers "No results found."; when the search returns (whatever it
    returns) and the pre-buffering succeeds, the song that ends up at the
    tail of the guild's queue has the query as its URL, and the query as its
    title too when the search found no video. *)
Theorem url_query_is_enqueued_as_is (i : Interaction) (st : State) :
  isChatInputCommand i = true → commandName i = "music"%string →
  subcommand i = "play"%string →
  isUrl (query i) = true →
  snd (interactionCreate w i st) ≠ Replied NoResultsFound ∧
  (∀ videos,
     ytSearch w (query i) = SearchInfo videos →
     is_Some (voiceChannel i) →
     settle (bufferLimit 5) (transcoding w (query i)) = Resolved →
     ∃ server audio,
       queues (fst (interactionCreate w i st)) !! guildId i = Some server ∧
       last (songs server)
       = Some (mkSong (titleOr videos (query i)) (query i) (Some audio)) ∧
       (videos = [] → titleOr videos (query i) = query i)).
Proof.
  intros H1 H2 H3 Hurl. rewrite music_play by done. split.
  - unfold play, resolveSong. rewrite Hurl.
    destruct (voiceChannel i); [|done].
    destruct (ytSearch w (query i)); [done|]. apply bufferAndEnqueue_reply.
  - intros videos Hs [c Hc] Hok. unfold play, resolveSong. rewrite Hurl, Hs, Hc.
    unfold bufferAndEnqueue. rewrite (createBufferedStream_resolved _ _ Hok).
    set (audio := mkAudio _ _). set (st1 := mkState _ _ _ _ _ _).
    set (song := mkSong _ _ _).
    unfold enqueue. destruct (queues st1 !! guildId i) as [server|] eqn:Hq.
    + exists (set_songs (songs server ++ [song]) server), audio. simpl.
      rewrite lookup_insert_eq. split; [done|]. split; [by rewrite last_snoc|].
      by intros ->.
    + set (server := mkServer _ _ _ _). set (st2 := mkState _ _ _ _ _ _).
      rewrite (playSong_buffered (guildId i) st2 server song [] audio);
        [|by apply lookup_insert_eq|done..].
      exists (mkServer (connection server)
                (mkPlayer (Some (stream audio)) 1 1) [song] (Some (proc audio))), audio.
      simpl. rewrite lookup_insert_eq. split; [done|]. split; [done|]. by intros ->.
Qed.

(** C5: a play request that resolves and buffers, sent to a guild that has a
    session, puts the new song behind the songs already queued; these keep
    their positions, the session's player, bound process pair and connection
    are unchanged, and every process that was running still is. *)
Theorem enqueue_appends_to_existing_session (i : Interaction) (st : State)
    (server : Server) (t u : string) :
  isChatInputCommand i = true → commandName i = "music"%string →
  subcommand i = "play"%string →
  is_Some (voiceChannel i) →
  resolveSong w (query i) = Found t u →
  settle (bufferLimit 5) (transcoding w u) = Resolved →
  queues st !! guildId i = Some server →
  ∃ st' audio,
    interactionCreate w i st = (st', Replied (AddedToQueue t)) ∧
    queues st'
    = <[guildId i := mkServer (connection server) (player server)
                       (songs server ++ [mkSong t u (Some audio)])
                       (playProcess server)]> (queues st) ∧
    (∀ k song, songs server !! k = Some song →
               ∃ server', queues st' !! guildId i = Some server' ∧
                          songs server' !! k = Some song) ∧
    running st ⊆ running st' ∧
    connections st' = connections st ∧
    immediates st' = immediates st.
Proof.
  intros H1 H2 H3 [c Hc] Hr Hok Hq. rewrite music_play by done.
  unfold play. rewrite Hc, Hr. unfold bufferAndEnqueue.
  rewrite (createBufferedStream_resolved _ _ Hok).
  set (audio := mkAudio _ _). unfold enqueue. simpl. rewrite Hq.
  eexists _, audio. split; [reflexivity|]. simpl. split; [done|].
  split; [|split; [intros x Hx; simpl; rewrite !elem_of_union; auto|done]].
  intros k song Hk. eexists. rewrite lookup_insert_eq. split; [done|].
  simpl. by apply lookup_app_l_Some.
Qed.

End Handler.

Section HandlerExamples.
Import Pipeline Bot.

Lemma skip_raises_reference_error_witness :
  interactionCreate demoWorld (skipCommand "G") init = (init, ReferenceError "song").
Proof.
  apply (skip_raises_reference_error demoWorld (skipCommand "G") init); reflexivity.
Defined.

(** C7, as stated, fails: a YouTube link for which the search finds nothing
    is not refused; a session is created for the guild with the link as the
    only song. *)
Lemma link_without_results_is_enqueued :
  let i := playCommand "G" "https://youtu.be/x" in
  let r := interactionCreate emptySearchWorld i init in
  ytSearch emptySearchWorld (query i) = SearchInfo [] ∧
  queues init !! "G"%string = None ∧
  snd r = Replied (NowPlaying "https://youtu.be/x") ∧
  (songs <$> queues (fst r) !! "G"%string)
  = Some [mkSong "https://youtu.be/x" "https://youtu.be/x"
                 (Some (mkAudio (mkProc 0 1) 0))].
Proof. by vm_compute. Qed.

Lemma no_results_leaves_state_witness :
  interactionCreate emptySearchWorld (playCommand "G" "never gonna") init
  = (init, Replied NoResultsFound).
Proof.
  apply (no_results_leaves_state emptySearchWorld (playCommand "G" "never gonna") init);
    reflexivity.
Defined.

Lemma url_query_is_enqueued_as_is_witness :
  let i := playCommand "G" "https://youtu.be/x" in
  snd (interactionCreate emptySearchWorld i init) ≠ Replied NoResultsFound ∧
  ∃ server audio,
    queues (fst (interactionCreate emptySearchWorld i init)) !! "G"%string = Some server ∧
    last (songs server) = Some (mkSong (query i) (query i) (Some audio)).
Proof.
  pose proof (url_query_is_enqueued_as_is emptySearchWorld
                (playCommand "G" "https://youtu.be/x") init
                eq_refl eq_refl eq_refl eq_refl) as [Hne Henq].
  split; [exact Hne|].
  destruct (Henq [] eq_refl (ex_intro _ 1 eq_refl) eq_refl) as (server & audio & Hq & Hl & _).
  exists server, audio. split; [exact Hq|exact Hl].
Defined.

Lemma enqueue_appends_to_existing_session_witness :
  let st := fst (interactionCreate demoWorld (playCommand "G" "a") init) in
  ∃ st' audio,
    interactionCreate demoWorld (playCommand "G" "b") st
    = (st', Replied (AddedToQueue "b")) ∧
    (songs <$> queues st' !! "G"%string)
    = Some [mkSong "a" "https://youtu.be/a" (Some (mkAudio (mkProc 0 1) 0));
            mkSong "b" "https://youtu.be/b" (Some audio)].
Proof.
  set (st := fst (interactionCreate demoWorld (playCommand "G" "a") init)).
  destruct (enqueue_appends_to_existing_session demoWorld (playCommand "G" "b") st
              (mkServer 0 (mkPlayer (Some 0) 1 1)
                 [mkSong "a" "https://youtu.be/a" (Some (mkAudio (mkProc 0 1) 0))]
                 (Some (mkProc 0 1)))
              "b" "https://youtu.be/b" eq_refl eq_refl eq_refl
              (ex_intro _ 1 eq_refl) eq_refl eq_refl eq_refl)
    as (st' & audio & Hr & Hq & _).
  exists st', audio. split; [exact Hr|].
  rewrite Hq, lookup_insert_eq. reflexivity.
Defined.

End HandlerExamples.

(** ** [playSong] and the player's listeners *)

Section Playback.
Import Pipeline Bot.

Lemma onIdle_onError g st : onIdle g st = onError g st.
Proof. reflexivity. Qed.

Lemma queues_killPlayProcess server st : queues (killPlayProcess server st) = queues st.
Proof. unfold killPlayProcess. by destruct (playProcess server). Qed.

Lemma immediates_killPlayProcess server st :
  immediates (killPlayProcess server st) = immediates st.
Proof. unfold killPlayProcess. by destruct (playProcess server). Qed.

Lemma onIdle_queues g st server :
  queues st !! g = Some server →
  queues (onIdle g st) = <[g := set_songs (tail (songs server)) server]> (queues st).
Proof.
  intros Hq. unfold onIdle. rewrite Hq. simpl. by rewrite queues_killPlayProcess.
Qed.

Lemma tail_drop {A} (l : list A) n : tail (drop n l) = drop (S n) l.
Proof.
  revert l. induction n as [|n IH]; intros [|x l]; simpl; try done.
  all: first [by rewrite drop_0 | by rewrite drop_nil | apply IH].
Qed.

(** [n] runs of a listener take [n] songs off the head. *)
Lemma iter_onIdle_songs g n st server :
  queues st !! g = Some server →
  ∃ server', queues (Nat.iter n (onIdle g) st) !! g = Some server' ∧
             songs server' = drop n (songs server).
Proof.
  intros Hq. induction n as [|n (server' & Hq' & Hs')]; simpl.
  - exists server. by rewrite drop_0.
  - rewrite (onIdle_queues _ _ _ Hq'), lookup_insert_eq. eexists. split; [done|].
    simpl. by rewrite Hs', tail_drop.
Qed.

Lemma emit_songs g e st server :
  queues st !! g = Some server →
  ∃ server', queues (emit g e st) !! g = Some server' ∧
             songs server'
             = drop (match e with
                     | Idle => idleOnce (player server)
                     | PlayerError => errorOnce (player server)
                     end) (songs server).
Proof.
  intros Hq. unfold emit. rewrite Hq. destruct e.
  - set (server0 := mkServer _ _ _ _).
    apply (iter_onIdle_songs g _ _ server0). simpl. apply lookup_insert_eq.
  - set (server0 := mkServer _ _ _ _).
    apply (iter_onIdle_songs g _ _ server0). simpl. apply lookup_insert_eq.
Qed.

(** One run of either listener, on a session whose bound process pair is
    the head's: the [Idle] listener and the ["error"] listener have the same
    body, so both kill the pair, take the head off the queue, keep the songs
    behind it in order and schedule [playSong], which starts the new head.
    How often the body runs for one event is another matter: it runs once
    for each listener that is registered. *)
Lemma idle_and_error_advance_alike (w : World) (g : string) (st : State)
    (server : Server) (song : Song) (rest : list Song) (audio : Audio) :
  queues st !! g = Some server →
  songs server = song :: rest →
  buffer song = Some audio →
  playProcess server = Some (proc audio) →
  onError g st = onIdle g st ∧
  queues (onIdle g st) = <[g := set_songs rest server]> (queues st) ∧
  running (onIdle g st) = running st ∖ {[ytdlp (proc audio)]} ∖ {[ffmpeg (proc audio)]} ∧
  immediates (onIdle g st) = immediates st ++ [g] ∧
  (∀ next rest' audio',
     rest = next :: rest' → buffer next = Some audio' →
     playSong w g (onIdle g st)
     = (startPlayback g (set_songs rest server) next rest' audio' (onIdle g st),
        Returned tt)) ∧
  (∀ e, ∃ server' k, queues (emit g e st) !! g = Some server' ∧
                     songs server' = drop k (songs server)).
Proof.
  intros Hq Hs Hb Hp. split; [done|].
  assert (queues (onIdle g st) = <[g := set_songs rest server]> (queues st)) as Hq'.
  { rewrite (onIdle_queues _ _ _ Hq), Hs. done. }
  split; [done|]. split; [|split; [|split]].
  - unfold onIdle. rewrite Hq. unfold killPlayProcess. rewrite Hp. done.
  - unfold onIdle. rewrite Hq. simpl. by rewrite immediates_killPlayProcess.
  - intros next rest' audio' -> Hb'.
    apply playSong_buffered; [|done..]. rewrite Hq'. apply lookup_insert_eq.
  - intros e. destruct (emit_songs g e st server Hq) as (server' & H1 & H2). eauto.
Qed.

(** One failing head: [playSong] drops it and calls itself on the rest. *)
Lemma playSong_failing_head w g st server song rest fuel :
  queues st !! g = Some server → songs server = song :: rest →
  failsToStart w song →
  playSong_ (S fuel) w g st
  = playSong_ fuel w g
      (let st1 := fst (createBufferedStream w (url song) 5 st) in
       set_queues (<[g := set_songs rest server]> (queues st1)) st1).
Proof.
  intros Hq Hs [Hb [err He]]. simpl. rewrite Hq, Hs, Hb.
  by rewrite (createBufferedStream_rejected _ _ _ _ He).
Qed.

Lemma playSong_drains w g (l : list Song) : ∀ st server,
  queues st !! g = Some server → songs server = l →
  Forall (failsToStart w) l →
  ∃ st', playSong_ (S (length l)) w g st = Some (st', Returned tt) ∧
         playSong_ (length l) w g st = None ∧
         queues st' = delete g (queues st) ∧
         connections st' = connections st ∖ {[connection server]} ∧
         immediates st' = immediates st.
Proof.
  induction l as [|song rest IH]; intros st server Hq Hs Hf.
  - eexists. simpl. rewrite Hq, Hs. split; [reflexivity|]. done.
  - apply Forall_cons in Hf as [Hsong Hrest].
    change (length (song :: rest)) with (S (length rest)).
    rewrite !(playSong_failing_head w g st server song rest) by done.
    destruct Hsong as [_ [err He]].
    rewrite (createBufferedStream_rejected _ _ _ _ He). simpl.
    set (st2 := set_queues _ _).
    destruct (IH st2 (set_songs rest server)) as (st' & H1 & H2 & H3 & H4 & H5);
      [apply lookup_insert_eq|done..|].
    exists st'. split; [done|]. split; [done|]. split; [|done].
    rewrite H3. simpl. apply delete_insert_eq.
Qed.

(** C3: when every queued song's pipeline fails to start, each failure
    takes exactly one song off the head and [playSong] calls itself on the
    rest; for a queue of [N] songs the calls end after the [N]+1st, not
    before, with the guild's entry removed from [queues] and its voice
    connection destroyed. *)
Theorem playSong_drains_failing_queue (w : World) (g : string) (st : State)
    (server : Server) :
  queues st !! g = Some server →
  Forall (failsToStart w) (songs server) →
  (∀ song rest fuel,
     songs server = song :: rest →
     playSong_ (S fuel) w g st
     = playSong_ fuel w g
         (let st1 := fst (createBufferedStream w (url song) 5 st) in
          set_queues (<[g := set_songs rest server]> (queues st1)) st1)) ∧
  ∃ st',
    playSong_ (S (length (songs server))) w g st = Some (st', Returned tt) ∧
    playSong_ (length (songs server)) w g st = None ∧
    playSong w g st = (st', Returned tt) ∧
    queues st' !! g = None ∧
    queues st' = delete g (queues st) ∧
    connection server ∉ connections st'.
Proof.
  intros Hq Hf. split.
  - intros song rest fuel Hs. apply (playSong_failing_head w g st server); [done..|].
    rewrite Hs in Hf. by apply Forall_cons in Hf as [? _].
  - destruct (playSong_drains w g (songs server) st server Hq eq_refl Hf)
      as (st' & H1 & H2 & H3 & H4 & _).
    exists st'. split; [done|]. split; [done|]. split.
    { unfold playSong, queueLength. rewrite Hq, H1. done. }
    split; [rewrite H3; apply lookup_delete_eq|]. split; [done|].
    rewrite H4, elem_of_difference, elem_of_singleton. by intros [_ []].
Qed.

(** [playSong] always returns within [queueLength + 1] nested calls. *)
Lemma playSong_total w g : ∀ fuel st,
  queueLength g st < fuel → is_Some (playSong_ fuel w g st).
Proof.
  induction fuel as [|fuel IH]; intros st Hlt; [lia|].
  simpl. unfold queueLength in Hlt.
  destruct (queues st !! g) as [server|] eqn:Hq; [|done].
  destruct (songs server) as [|song rest] eqn:Hs; [done|].
  destruct (buffer song); [done|].
  destruct (createBufferedStream w (url song) 5 st) as [st1 [a| |]] eqn:Hc; [done| |done].
  apply IH. unfold queueLength. simpl. rewrite lookup_insert_eq. simpl in *. lia.
Qed.

End Playback.

Section PlaybackExamples.
Import Pipeline Bot.

Ltac decide_by_compute := apply bool_decide_unpack; vm_compute; exact I.

Lemma idle_and_error_advance_alike_witness :
  let st := exec demoWorld [Command (playCommand "G" "a"); Command (playCommand "G" "b")] in
  onError "G" st = onIdle "G" st ∧
  (songs <$> queues (onIdle "G" st) !! "G"%string)
  = Some [mkSong "b" "https://youtu.be/b" (Some (mkAudio (mkProc 2 3) 2))] ∧
  running (onIdle "G" st) = running st ∖ {[0]} ∖ {[1]}.
Proof.
  set (st := exec demoWorld [Command (playCommand "G" "a"); Command (playCommand "G" "b")]).
  destruct (idle_and_error_advance_alike demoWorld "G" st
              (mkServer 0 (mkPlayer (Some 0) 1 1)
                 [mkSong "a" "https://youtu.be/a" (Some (mkAudio (mkProc 0 1) 0));
                  mkSong "b" "https://youtu.be/b" (Some (mkAudio (mkProc 2 3) 2))]
                 (Some (mkProc 0 1)))
              (mkSong "a" "https://youtu.be/a" (Some (mkAudio (mkProc 0 1) 0)))
              [mkSong "b" "https://youtu.be/b" (Some (mkAudio (mkProc 2 3) 2))]
              (mkAudio (mkProc 0 1) 0) eq_refl eq_refl eq_refl eq_refl)
    as (H1 & H2 & H3 & _).
  split; [exact H1|]. split; [|exact H3].
  rewrite H2, lookup_insert_eq. reflexivity.
Defined.

Lemma playSong_drains_failing_queue_witness :
  ∃ st', playSong failingWorld "G" unbufferedQueue = (st', Returned tt) ∧
         playSong_ 3 failingWorld "G" unbufferedQueue = Some (st', Returned tt) ∧
         playSong_ 2 failingWorld "G" unbufferedQueue = None ∧
         queues st' !! "G"%string = None ∧
         0 ∉ connections st'.
Proof.
  destruct (playSong_drains_failing_queue failingWorld "G" unbufferedQueue
              (mkServer 0 (mkPlayer None 0 0)
                 [mkSong "a" "a" None; mkSong "b" "b" None] None) eq_refl)
    as (_ & st' & H1 & H2 & H3 & H4 & _ & H5).
  { repeat constructor; eexists; reflexivity. }
  exists st'. repeat split; assumption.
Defined.

(** C6 at the failing run: song a has ended and song b has been started,
    so the session is as [playSong] leaves it (the bound pair is the head's)
    with one [Idle] listener and two ["error"] listeners, one of them left
    over from the first [playSong]. From this state the end of b takes b off
    the queue and schedules one [playSong], while an error of b takes b and
    c off the queue and schedules two: the two events do not make the same
    transition. *)
Lemma error_event_advances_twice :
  let st := exec demoWorld (threeSongs ++ [PlayerEmits "G" Idle; RunImmediate]) in
  queues st !! "G"%string
  = Some (mkServer 0 (mkPlayer (Some 2) 1 2)
            [mkSong "b" "https://youtu.be/b" (Some (mkAudio (mkProc 2 3) 2));
             mkSong "c" "https://youtu.be/c" (Some (mkAudio (mkProc 4 5) 4))]
            (Some (mkProc 2 3))) ∧
  immediates st = [] ∧
  (songs <$> queues (emit "G" Idle st) !! "G"%string)
  = Some [mkSong "c" "https://youtu.be/c" (Some (mkAudio (mkProc 4 5) 4))] ∧
  immediates (emit "G" Idle st) = ["G"%string] ∧
  (songs <$> queues (emit "G" PlayerError st) !! "G"%string) = Some [] ∧
  immediates (emit "G" PlayerError st) = ["G"%string; "G"%string] ∧
  emit "G" Idle st ≠ emit "G" PlayerError st.
Proof.
  repeat split; by vm_compute.
Qed.

(** C4 at the failing run: after the first song ended, the player holds two
    ["error"] listeners (one left over from the first [playSong]); the error
    of the second song runs both, the second one takes song c off the queue
    without killing its processes 4 and 5, and they are still running when
    the session has been torn down. *)
Lemma stale_error_listener_orphans_processes :
  let before := exec demoWorld threeSongs in
  let st := exec demoWorld (threeSongs ++ endThenError) in
  let final := exec demoWorld (threeSongs ++ endThenError ++ [RunImmediate; RunImmediate]) in
  (songs <$> queues before !! "G"%string)
  = Some [mkSong "a" "https://youtu.be/a" (Some (mkAudio (mkProc 0 1) 0));
          mkSong "b" "https://youtu.be/b" (Some (mkAudio (mkProc 2 3) 2));
          mkSong "c" "https://youtu.be/c" (Some (mkAudio (mkProc 4 5) 4))] ∧
  (songs <$> queues st !! "G"%string) = Some [] ∧
  4 ∈ running st ∧ 5 ∈ running st ∧
  queues final !! "G"%string = None ∧
  immediates final = [] ∧
  4 ∈ running final ∧ 5 ∈ running final.
Proof.
  repeat split; first [by vm_compute | decide_by_compute].
Qed.


End PlaybackExamples.

(** ** Which processes the queued songs hold *)

Section Ownership.
Import Pipeline Bot.

Lemma owns_insert st st' g server' g' k pid :
  queues st' = <[g := server']> (queues st) →
  owns st' g' k pid →
  (g' = g ∧ ∃ song, songs server' !! k = Some song ∧ pid ∈ songPids song) ∨
  (g' ≠ g ∧ owns st g' k pid).
Proof.
  intros Hq (server & song & H1 & H2 & H3). rewrite Hq in H1.
  apply lookup_insert_Some in H1 as [[<- <-]|[Hne H1]]; [left|right].
  - eauto.
  - split; [done|]. by exists server, song.
Qed.

Lemma Consistent_init : Consistent init.
Proof.
  split; unfold owns; simpl.
  - intros g server song H. by rewrite lookup_empty in H.
  - intros g k pid (server & song & H & _). by rewrite lookup_empty in H.
  - intros g server p H. by rewrite lookup_empty in H.
  - intros g1 k1 g2 k2 pid (server & song & H & _). by rewrite lookup_empty in H.
  - intros g server p g' k pid H. by rewrite lookup_empty in H.
  - intros g k pid (server & song & H & _). by rewrite lookup_empty in H.
Qed.

(** Dropping sessions, spawning and un-killing nothing keeps consistency. *)
Lemma Consistent_shrink st st' :
  Consistent st →
  queues st' ⊆ queues st → running st ⊆ running st' → nextPid st ≤ nextPid st' →
  Consistent st'.
Proof.
  intros [C1 C2 C3 C4 C5 C6] Hq Hr Hn.
  assert (∀ g server, queues st' !! g = Some server → queues st !! g = Some server) as Hl.
  { intros g server H. by eapply lookup_weaken. }
  assert (∀ g k pid, owns st' g k pid → owns st g k pid) as Ho.
  { intros g k pid (server & song & H1 & H2 & H3). exists server, song. auto. }
  split.
  - intros g server song H. apply (C1 g). auto.
  - intros g k pid H. specialize (C2 g k pid (Ho _ _ _ H)). lia.
  - intros g server p H1 H2. specialize (C3 g server p (Hl _ _ H1) H2). lia.
  - intros g1 k1 g2 k2 pid H1 H2. eauto.
  - intros g server p g' k pid H1 H2 H3. eauto.
  - intros g k pid H. apply Hr. eauto.
Qed.

(** A song with two newly spawned processes goes to the tail of a queue,
    or becomes the only song of a new one. *)
Lemma Consistent_add st st' g server' song t u c :
  Consistent st →
  queues st' = <[g := server']> (queues st) →
  songs server' = match queues st !! g with Some s => songs s | None => [] end ++ [song] →
  playProcess server' = (queues st !! g) ≫= playProcess →
  song = mkSong t u (Some (mkAudio (mkProc (nextPid st) (S (nextPid st))) c)) →
  nextPid st' = S (S (nextPid st)) →
  {[nextPid st]} ∪ {[S (nextPid st)]} ∪ running st ⊆ running st' →
  Consistent st'.
Proof.
  intros [C1 C2 C3 C4 C5 C6] Hq Hs Hp Hsong Hn Hr.
  set (olds := match queues st !! g with Some s => songs s | None => [] end) in *.
  assert (∀ g' k pid, owns st' g' k pid →
            owns st g' k pid ∨
            (g' = g ∧ k = length olds ∧ (pid = nextPid st ∨ pid = S (nextPid st)))) as Ho.
  { intros g' k pid H. destruct (owns_insert _ _ _ _ _ _ _ Hq H) as [[-> (s & H1 & H2)]|[_ H1]];
      [|by left].
    rewrite Hs in H1. apply lookup_app_Some in H1 as [H1|[Hlen H1]].
    - left. subst olds. destruct (queues st !! g) as [srv|] eqn:E; [|by rewrite lookup_nil in H1].
      by exists srv, s.
    - right. split; [done|]. apply list_lookup_singleton_Some in H1 as [Hk <-].
      split; [lia|]. rewrite Hsong in H2. unfold songPids in H2. simpl in H2.
      apply list_elem_of_In in H2. destruct H2 as [<-|[<-|[]]]; auto. }
  assert (∀ g' server p, queues st' !! g' = Some server → playProcess server = Some p →
            ∃ server0, queues st !! g' = Some server0 ∧ playProcess server0 = Some p) as Hb.
  { intros g' server p H1 H2. rewrite Hq in H1.
    apply lookup_insert_Some in H1 as [[<- <-]|[Hne H1]]; [|eauto].
    rewrite Hp in H2. destruct (queues st !! g) as [srv|]; [|done]. eauto. }
  split.
  - intros g' server s H1 H2. rewrite Hq in H1.
    apply lookup_insert_Some in H1 as [[<- <-]|[Hne H1]]; [|by eapply C1].
    rewrite Hs in H2. apply elem_of_app in H2 as [H2|H2].
    + subst olds. destruct (queues st !! g) as [srv|] eqn:E; [by eapply C1|inversion H2].
    + apply list_elem_of_singleton in H2 as ->. rewrite Hsong. by eexists.
  - intros g' k pid H. destruct (Ho _ _ _ H) as [H1|(_ & _ & H1)]; [|lia].
    specialize (C2 _ _ _ H1). lia.
  - intros g' server p H1 H2. destruct (Hb _ _ _ H1 H2) as (s0 & H3 & H4).
    specialize (C3 _ _ _ H3 H4). lia.
  - intros g1 k1 g2 k2 pid H1 H2.
    destruct (Ho _ _ _ H1) as [H1'|(-> & -> & H1')], (Ho _ _ _ H2) as [H2'|(-> & -> & H2')].
    + eauto.
    + specialize (C2 _ _ _ H1'). lia.
    + specialize (C2 _ _ _ H2'). lia.
    + done.
  - intros g0 server p g' k pid H1 H2 H3. destruct (Hb _ _ _ H1 H2) as (s0 & H4 & H5).
    destruct (Ho _ _ _ H3) as [H3'|(_ & _ & H3')]; [by eapply C5|].
    specialize (C3 _ _ _ H4 H5). lia.
  - intros g' k pid H. destruct (Ho _ _ _ H) as [H1|(_ & _ & H1)].
    + apply Hr. specialize (C6 _ _ _ H1). rewrite !elem_of_union. auto.
    + apply Hr. rewrite !elem_of_union, !elem_of_singleton. tauto.
Qed.


(** A session gets another player state or binds its head's pair; the
    songs stay. *)
Lemma Consistent_rebind st st' g server server' :
  Consistent st →
  queues st !! g = Some server →
  queues st' = <[g := server']> (queues st) →
  songs server' = songs server →
  (∀ p, playProcess server' = Some p →
        playProcess server = Some p ∨
        ∃ song audio, songs server !! 0 = Some song ∧ buffer song = Some audio ∧
                      p = proc audio) →
  running st ⊆ running st' → nextPid st ≤ nextPid st' →
  Consistent st'.
Proof.
  intros [C1 C2 C3 C4 C5 C6] Hg Hq Hs Hp Hr Hn.
  assert (∀ g' k pid, owns st' g' k pid → owns st g' k pid) as Ho.
  { intros g' k pid H. destruct (owns_insert _ _ _ _ _ _ _ Hq H) as [[-> (s & H1 & H2)]|[_ H1]];
      [|done].
    rewrite Hs in H1. by exists server, s. }
  assert (∀ g' srv p, queues st' !! g' = Some srv → playProcess srv = Some p →
            (∃ srv0, queues st !! g' = Some srv0 ∧ playProcess srv0 = Some p) ∨
            (owns st g 0 (ytdlp p) ∧ owns st g 0 (ffmpeg p))) as Hb.
  { intros g' srv p H1 H2. rewrite Hq in H1.
    apply lookup_insert_Some in H1 as [[<- <-]|[Hne H1]]; [|eauto].
    destruct (Hp _ H2) as [H3|(song & audio & H3 & H4 & ->)]; [eauto|].
    right. split; exists server, song; (split; [done|]); (split; [done|]);
      unfold songPids; rewrite H4.
    - apply list_elem_of_here.
    - apply list_elem_of_further, list_elem_of_here. }
  split.
  - intros g' srv s H1 H2. rewrite Hq in H1.
    apply lookup_insert_Some in H1 as [[<- <-]|[Hne H1]]; [|by eapply C1].
    rewrite Hs in H2. by eapply C1.
  - intros g' k pid H. specialize (C2 _ _ _ (Ho _ _ _ H)). lia.
  - intros g' srv p H1 H2. destruct (Hb _ _ _ H1 H2) as [(s0 & H3 & H4)|[H3 H4]].
    + specialize (C3 _ _ _ H3 H4). lia.
    + pose proof (C2 _ _ _ H3). pose proof (C2 _ _ _ H4). lia.
  - intros g1 k1 g2 k2 pid H1 H2. eauto.
  - intros g0 srv p g' k pid H1 H2 H3. apply Ho in H3.
    destruct (Hb _ _ _ H1 H2) as [(s0 & H4 & H5)|[H4 H5]]; [by eapply C5|].
    split; intros ->.
    + by destruct (C4 _ _ _ _ _ H3 H4) as [_ ?].
    + by destruct (C4 _ _ _ _ _ H3 H5) as [_ ?].
  - intros g' k pid H. apply Hr. eauto.
Qed.

Lemma lookup_tail_S {A} (l : list A) k : tail l !! k = l !! S k.
Proof. by destruct l. Qed.

(** A listener runs: the bound pair is killed and the head leaves. *)
Lemma Consistent_onIdle st g : Consistent st → Consistent (onIdle g st).
Proof.
  intros C. unfold onIdle. destruct (queues st !! g) as [server|] eqn:Hg;
    [|by apply (Consistent_shrink st)].
  destruct C as [C1 C2 C3 C4 C5 C6].
  set (st' := setImmediate g _).
  assert (queues st' = <[g := set_songs (tail (songs server)) server]> (queues st)) as Hq.
  { unfold st'. simpl. by rewrite queues_killPlayProcess. }
  assert (nextPid st' = nextPid st) as Hn.
  { unfold st', killPlayProcess. simpl. by destruct (playProcess server). }
  assert (∀ pid, pid ∈ running st →
            (∀ p, playProcess server = Some p → pid ≠ ytdlp p ∧ pid ≠ ffmpeg p) →
            pid ∈ running st') as Hr.
  { intros pid H1 H2. unfold st', killPlayProcess. simpl.
    destruct (playProcess server) as [p|]; [|done]. simpl.
    destruct (H2 p eq_refl). rewrite !elem_of_difference, !elem_of_singleton. done. }
  assert (∀ g' k pid, owns st' g' k pid →
            owns st g' (if decide (g' = g) then S k else k) pid) as Ho.
  { intros g' k pid H. destruct (owns_insert _ _ _ _ _ _ _ Hq H) as [[-> (s & H1 & H2)]|[Hne H1]].
    - rewrite decide_True by done. simpl in H1. rewrite lookup_tail_S in H1.
      by exists server, s.
    - by rewrite decide_False. }
  assert (∀ g' srv p, queues st' !! g' = Some srv → playProcess srv = Some p →
            ∃ srv0, queues st !! g' = Some srv0 ∧ playProcess srv0 = Some p) as Hb.
  { intros g' srv p H1 H2. rewrite Hq in H1.
    apply lookup_insert_Some in H1 as [[<- <-]|[Hne H1]]; eauto. }
  split.
  - intros g' srv s H1 H2. rewrite Hq in H1.
    apply lookup_insert_Some in H1 as [[<- <-]|[Hne H1]]; [|by eapply C1].
    apply (C1 g server); [done|]. simpl in H2.
    destruct (songs server); [done|]. by apply list_elem_of_further.
  - intros g' k pid H. rewrite Hn. eauto.
  - intros g' srv p H1 H2. rewrite Hn. destruct (Hb _ _ _ H1 H2) as (s0 & H3 & H4). eauto.
  - intros g1 k1 g2 k2 pid H1 H2.
    destruct (C4 _ _ _ _ _ (Ho _ _ _ H1) (Ho _ _ _ H2)) as [-> Hk]. split; [done|].
    destruct (decide (g2 = g)); lia.
  - intros g0 srv p g' k pid H1 H2 H3. destruct (Hb _ _ _ H1 H2) as (s0 & H4 & H5).
    apply Ho in H3. destruct (decide (g' = g)); by eapply C5.
  - intros g' k pid H. apply Ho in H. apply Hr.
    + destruct (decide (g' = g)); by eapply C6.
    + intros p Hp. destruct (decide (g' = g)); by eapply C5.
Qed.


Lemma Consistent_iter_onIdle g n st :
  Consistent st → Consistent (Nat.iter n (onIdle g) st).
Proof. intros C. induction n as [|n IH]; simpl; [done|]. by apply Consistent_onIdle. Qed.

Lemma Consistent_emit g e st : Consistent st → Consistent (emit g e st).
Proof.
  intros C. unfold emit. destruct (queues st !! g) as [server|] eqn:Hg; [|done].
  destruct e.
  - apply Consistent_iter_onIdle.
    eapply (Consistent_rebind st _ g server); [done..| |done|done].
    intros p Hp. by left.
  - change (onError g) with (onIdle g). apply Consistent_iter_onIdle.
    eapply (Consistent_rebind st _ g server); [done..| |done|done].
    intros p Hp. by left.
Qed.

Lemma Consistent_startPlayback g st server song rest audio :
  Consistent st →
  queues st !! g = Some server → songs server = song :: rest →
  buffer song = Some audio →
  Consistent (startPlayback g server song rest audio st).
Proof.
  intros C Hg Hs Hb.
  eapply (Consistent_rebind st _ g server); [done|done|reflexivity| | |done|done].
  - simpl. rewrite Hs. f_equal. destruct song; simpl in *; by subst.
  - simpl. intros p [= <-]. right. exists song, audio. by rewrite Hs.
Qed.

Lemma Consistent_playSong w g st : Consistent st → Consistent (fst (playSong w g st)).
Proof.
  intros C. destruct (queues st !! g) as [server|] eqn:Hg.
  - destruct (songs server) as [|song rest] eqn:Hs.
    + unfold playSong, queueLength. rewrite Hg, Hs. simpl. rewrite Hg, Hs. simpl.
      apply (Consistent_shrink st); [done| |done..]. simpl. apply delete_subseteq.
    + destruct (cons_buffered st C g server song Hg) as [audio Hb].
      { rewrite Hs. apply list_elem_of_here. }
      rewrite (playSong_buffered w g st server song rest audio) by done.
      by apply Consistent_startPlayback.
  - unfold playSong, queueLength. rewrite Hg. simpl. rewrite Hg. simpl.
    apply (Consistent_shrink st); [done| |done..]. simpl. apply delete_subseteq.
Qed.

Lemma Consistent_bufferAndEnqueue w g t u st :
  Consistent st → Consistent (fst (bufferAndEnqueue w g t u st)).
Proof.
  intros C. unfold bufferAndEnqueue, createBufferedStream. simpl.
  destruct (settle _ _).
  - apply (Consistent_shrink st); simpl; [done|done| |lia].
    intros x Hx. rewrite !elem_of_union. auto.
  - set (song := mkSong _ _ _). unfold enqueue. simpl.
    destruct (queues st !! g) as [server|] eqn:Hg.
    + simpl. eapply (Consistent_add st _ g _ song); [done|reflexivity| | |reflexivity|done|].
      * by rewrite Hg.
      * by rewrite Hg.
      * simpl. intros x. rewrite !elem_of_union. tauto.
    + set (server := mkServer (nextConn st) (mkPlayer None 0 0) [song] None).
      set (st1 := mkState _ _ _ _ _ _).
      assert (Consistent st1) as C1.
      { eapply (Consistent_add st st1 g server song); [done|reflexivity| | |reflexivity|done|].
        - by rewrite Hg.
        - by rewrite Hg.
        - simpl. intros x. rewrite !elem_of_union. tauto. }
      rewrite (playSong_buffered w g st1 server song []
                 (mkAudio (mkProc (nextPid st) (S (nextPid st))) (nextPid st)));
        [|apply lookup_insert_eq|done..].
      simpl. apply Consistent_startPlayback; [done|apply lookup_insert_eq|done..].
  - apply (Consistent_shrink st); simpl; [done|done| |lia].
    intros x Hx. rewrite !elem_of_union. auto.
Qed.

Lemma Consistent_interactionCreate w i st :
  Consistent st → Consistent (fst (interactionCreate w i st)).
Proof.
  intros C. unfold interactionCreate.
  destruct (negb (isChatInputCommand i)); [done|].
  destruct (String.eqb (commandName i) "ping"); [done|].
  destruct (String.eqb (commandName i) "hello"); [done|].
  destruct (String.eqb (commandName i) "music"); [|done].
  destruct (String.eqb (subcommand i) "play").
  - unfold play. destruct (voiceChannel i); [|done].
    destruct (resolveSong w (query i)); [|done..]. by apply Consistent_bufferAndEnqueue.
  - destruct (String.eqb (subcommand i) "skip"); [|done]. unfold skip. by destruct (inScope _ _).
Qed.

Lemma Consistent_step w st ev : Consistent st → Consistent (step w st ev).
Proof.
  intros C. destruct ev as [i|g e|]; simpl.
  - by apply Consistent_interactionCreate.
  - by apply Consistent_emit.
  - destruct (immediates st) as [|g rest]; [done|].
    apply Consistent_playSong. by apply (Consistent_shrink st).
Qed.

Lemma Consistent_reachable w st : reachable w st → Consistent st.
Proof.
  intros [evs <-]. unfold exec. generalize init Consistent_init.
  induction evs as [|ev evs IH]; intros st C; simpl; [done|].
  by apply IH, Consistent_step.
Qed.


End Ownership.

Section OwnershipExamples.
Import Pipeline Bot.


End OwnershipExamples.

(** ** More on the buffering promise *)

Section BufferingMore.
Import Pipeline Bot.

Variable limit : Z.

Lemma bytes_app l1 l2 : bytes (l1 ++ l2) = (bytes l1 + bytes l2)%Z.
Proof. induction l1 as [|c l1 IH]; simpl; [done|]. rewrite IH. lia. Qed.

Lemma produced_chunks tr : produced tr = bytes (chunksOf tr).
Proof.
  induction tr as [|e tr IH]; [done|]. rewrite produced_cons, IH.
  destruct e; simpl; lia.
Qed.

(** After [end()], events that carry no data leave the stream alone. *)
Lemma passThrough_after_end tr : ∀ b,
  ended b = true → forallb (fun e => negb (is_data e)) tr = true →
  passThrough (run_from limit b tr) = passThrough b ∧ ended (run_from limit b tr) = true.
Proof.
  induction tr as [|e tr IH]; intros b Hb Hd; simpl; [done|].
  simpl in Hd. apply andb_prop in Hd as [He Hd].
  destruct (IH (on_event limit b e)) as [H1 H2]; [|done|].
  - destruct e as [chunk| |[] err|]; simpl; try done.
    destruct (polling b); [|done]. unfold check. by destruct (limit <=? buffered b)%Z.
  - rewrite H1, H2. split; [|done].
    destruct e as [chunk| |[] err|]; simpl; try done.
    destruct (polling b); [|done]. unfold check. by destruct (limit <=? buffered b)%Z.
Qed.

Lemma passThrough_run_from tr : ∀ b,
  ended b = false → wellFormed tr = true →
  passThrough (run_from limit b tr) = passThrough b ++ chunksOf tr ∧
  ended (run_from limit b tr) = existsb is_end tr.
Proof.
  induction tr as [|e tr IH]; intros b Hb Hw.
  - simpl. by rewrite app_nil_r, Hb.
  - destruct e as [chunk| |w err|].
    + destruct (IH (on_event limit b (FfmpegData chunk))) as [H1 H2]; [done|done|].
      simpl in *. by rewrite H1, H2, Hb, <- app_assoc.
    + destruct (passThrough_after_end tr (on_event limit b FfmpegEnd)) as [H1 H2];
        [done|done|].
      simpl in *. rewrite H1, H2. split; [|done].
      assert (chunksOf tr = []) as ->; [|by rewrite app_nil_r].
      clear -Hw. induction tr as [|e tr IH]; [done|]. simpl in Hw.
      apply andb_prop in Hw as [He Hw]. simpl. rewrite (IH Hw). by destruct e.
    + destruct (IH (on_event limit b (ProcError w err))) as [H1 H2];
        [by destruct w|done|].
      simpl in *. rewrite H1, H2. by destruct w.
    + assert (ended (on_event limit b Tick) = false ∧
              passThrough (on_event limit b Tick) = passThrough b) as [Ht1 Ht2].
      { simpl. destruct (polling b); [|done]. unfold check.
        by destruct (limit <=? buffered b)%Z. }
      destruct (IH (on_event limit b Tick)) as [H1 H2]; [done|done|].
      simpl in *. by rewrite H1, H2, Ht2.
Qed.

(** The poll timer is disarmed only by a [check] that saw the counter at
    or above the limit, and a resolved promise has no timer left. *)
Lemma polling_or_reached tr : ∀ b,
  (polling b = true ∨ (limit <= buffered b)%Z) →
  polling (run_from limit b tr) = true ∨ (limit <= buffered (run_from limit b tr))%Z.
Proof.
  induction tr as [|e tr IH]; intros b Hb; simpl; [done|]. apply IH.
  destruct e as [chunk| |[] err|]; simpl; try done.
  - destruct Hb as [Hb|Hb]; [by left|right; lia].
  - destruct (polling b) eqn:Hp; [|destruct Hb as [Hb|Hb]; [congruence|by right]].
    unfold check.
    destruct (limit <=? buffered b)%Z eqn:E; simpl; [right; lia|by left].
Qed.

Lemma settled_run_from tr b :
  promise b ≠ Pending → promise (run_from limit b tr) = promise b.
Proof.
  intros Hb. destruct (promise b) as [| |err] eqn:E; [done| |].
  - by apply resolved_run_from.
  - by apply rejected_run_from.
Qed.

End BufferingMore.

Section BufferingLaws.
Import Pipeline Bot.

(** X1: on a well-formed stream the pass-through stream holds every chunk
    the transcoder emitted, in order, whatever polls and process errors
    came in between, and the byte counter is the number of bytes in it. *)
Theorem passThrough_receives_every_chunk (limit : Z) (tr : list PipeEvent) :
  wellFormed tr = true →
  passThrough (run limit tr) = chunksOf tr ∧
  buffered (run limit tr) = bytes (passThrough (run limit tr)) ∧
  ended (run limit tr) = existsb is_end tr.
Proof.
  intros Hw.
  assert (ended (start limit) = false ∧ passThrough (start limit) = []) as [He Hp].
  { unfold start, check. simpl. by destruct (limit <=? 0)%Z. }
  destruct (passThrough_run_from limit tr (start limit) He Hw) as [H1 H2].
  rewrite Hp in H1. unfold run. rewrite H1, H2. split; [done|]. split; [|done].
  fold (run limit tr). by rewrite buffered_run, produced_chunks.
Qed.

Lemma passThrough_receives_every_chunk_witness :
  let tr := [FfmpegData (mkChunk 3); Tick; ProcError Downloader "EPIPE";
             FfmpegData (mkChunk 4); FfmpegEnd; Tick] in
  passThrough (run (bufferLimit 5) tr) = [mkChunk 3; mkChunk 4] ∧
  buffered (run (bufferLimit 5) tr) = 7%Z.
Proof.
  destruct (passThrough_receives_every_chunk (bufferLimit 5)
              [FfmpegData (mkChunk 3); Tick; ProcError Downloader "EPIPE";
               FfmpegData (mkChunk 4); FfmpegEnd; Tick] eq_refl) as (H1 & H2 & _).
  split; [exact H1|]. rewrite H2, H1. reflexivity.
Defined.

(** X2: when no process error occurs, the call returns its handle if the
    transcoder produces at least [bufferSizeMB] MiB and never returns
    otherwise, whether or not the stream has ended. *)
Theorem createBufferedStream_without_errors (bufferSizeMB : Z) (w : World)
    (u : string) (st : State) :
  no_errors (transcoding w u) = true →
  settle (bufferLimit bufferSizeMB) (transcoding w u)
  = (if (bufferLimit bufferSizeMB <=? produced (transcoding w u))%Z
     then Resolved else Pending) ∧
  snd (createBufferedStream w u bufferSizeMB st)
  = (if (bufferLimit bufferSizeMB <=? produced (transcoding w u))%Z
     then Returned (mkAudio (mkProc (nextPid st) (S (nextPid st))) (nextPid st))
     else Hung).
Proof.
  intros Hne. set (limit := bufferLimit bufferSizeMB). set (tr := transcoding w u).
  assert (settle limit tr = if (limit <=? produced tr)%Z then Resolved else Pending) as Hs.
  { unfold settle. rewrite buffered_run.
    destruct (promise (run limit tr)) as [| |err] eqn:Hp; [done| |].
    - pose proof (resolved_above_run limit tr Hp) as H. rewrite buffered_run in H.
      destruct (limit <=? produced tr)%Z eqn:E; [done|lia].
    - by destruct (not_rejected_run limit tr err). }
  split; [done|]. rewrite createBufferedStream_settle. fold limit tr. rewrite Hs.
  by destruct (limit <=? produced tr)%Z.
Qed.

Lemma createBufferedStream_without_errors_witness :
  snd (createBufferedStream (mkWorld (fun _ => SearchInfo []) (fun _ => shortStream))
         "https://youtu.be/x" 5 init) = Hung ∧
  snd (createBufferedStream demoWorld "https://youtu.be/x" 5 init)
  = Returned (mkAudio (mkProc 0 1) 0).
Proof.
  split.
  - exact (proj2 (createBufferedStream_without_errors 5
                    (mkWorld (fun _ => SearchInfo []) (fun _ => shortStream))
                    "https://youtu.be/x" init eq_refl)).
  - exact (proj2 (createBufferedStream_without_errors 5 demoWorld
                    "https://youtu.be/x" init eq_refl)).
Defined.

(** X3: a settled promise keeps its outcome. A process error that arrives
    after the promise was resolved is swallowed, and after a rejection
    neither more data nor a second error changes the reason. *)
Theorem settled_promise_is_final (limit : Z) (tr tr' : list PipeEvent) :
  promise (run limit tr) ≠ Pending →
  promise (run limit (tr ++ tr')) = promise (run limit tr) ∧
  settle limit (tr ++ tr') = promise (run limit tr).
Proof.
  intros Hs.
  assert (promise (run limit (tr ++ tr')) = promise (run limit tr)) as H.
  { rewrite run_app. by apply settled_run_from. }
  split; [done|]. unfold settle. rewrite H. by destruct (promise (run limit tr)).
Qed.

Lemma settled_promise_is_final_witness :
  settle (bufferLimit 5) ((fullStream ++ [Tick]) ++ bothFail) = Resolved ∧
  settle (bufferLimit 5) (bothFail ++ fullStream ++ [Tick])
  = Rejected "spawn yt-dlp ENOENT".
Proof.
  split.
  - refine (eq_trans (proj2 (settled_promise_is_final (bufferLimit 5)
                               (fullStream ++ [Tick]) bothFail _)) _);
      [by vm_compute|by vm_compute].
  - refine (eq_trans (proj2 (settled_promise_is_final (bufferLimit 5)
                               bothFail (fullStream ++ [Tick]) _)) _);
      [by vm_compute|by vm_compute].
Defined.

(** X4: while the byte counter is below the limit the 10 ms timer stays
    armed and the promise is not resolved; this holds after a rejection
    too, so a call that failed keeps polling until the limit is reached. *)
Theorem poll_timer_stays_armed_below_limit (limit : Z) (tr : list PipeEvent) :
  (produced tr < limit)%Z →
  polling (run limit tr) = true ∧ promise (run limit tr) ≠ Resolved.
Proof.
  intros Hlt. split.
  - destruct (polling_or_reached limit tr (start limit)) as [H|H]; [|done|].
    + unfold start, check. simpl. destruct (limit <=? 0)%Z eqn:E; simpl; [right; lia|by left].
    + fold (run limit tr) in H. rewrite buffered_run in H. lia.
  - intros Hp. pose proof (resolved_above_run limit tr Hp) as H.
    rewrite buffered_run in H. lia.
Qed.

Lemma poll_timer_stays_armed_below_limit_witness :
  promise (run (bufferLimit 5) (bothFail ++ [Tick; Tick]))
  = Rejected "spawn yt-dlp ENOENT" ∧
  polling (run (bufferLimit 5) (bothFail ++ [Tick; Tick])) = true.
Proof.
  split; [reflexivity|].
  apply (poll_timer_stays_armed_below_limit (bufferLimit 5) (bothFail ++ [Tick; Tick])).
  by vm_compute.
Defined.

(** X5: with [bufferSizeMB] at or below zero the promise is resolved by the
    [check] made at call time, so the call returns a handle whatever the
    two processes do afterwards, a failure to start included. *)
Theorem nonpositive_limit_returns_at_once (bufferSizeMB : Z) (tr : list PipeEvent) :
  (bufferSizeMB <= 0)%Z →
  promise (run (bufferLimit bufferSizeMB) tr) = Resolved ∧
  polling (run (bufferLimit bufferSizeMB) tr) = false ∧
  ∀ w u st, transcoding w u = tr →
    snd (createBufferedStream w u bufferSizeMB st)
    = Returned (mkAudio (mkProc (nextPid st) (S (nextPid st))) (nextPid st)).
Proof.
  intros Hmb. set (limit := bufferLimit bufferSizeMB).
  assert ((limit <=? 0)%Z = true) as Hl.
  { apply Z.leb_le. unfold limit, bufferLimit. lia. }
  assert (promise (start limit) = Resolved ∧ polling (start limit) = false) as [Hp Ht].
  { unfold start, check. simpl. by rewrite Hl. }
  assert (promise (run limit tr) = Resolved) as Hres.
  { by apply resolved_run_from. }
  split; [done|]. split.
  - clear Hres. unfold run. revert Hp Ht. generalize (start limit).
    induction tr as [|e tr IH]; intros b Hp Ht; simpl; [done|].
    apply IH.
    + by apply resolved_on_event.
    + destruct e as [chunk| |[] err|]; simpl; try done. by rewrite Ht.
  - intros w u st Htr. rewrite createBufferedStream_settle, Htr. fold limit.
    unfold settle. by rewrite Hres.
Qed.

Lemma nonpositive_limit_returns_at_once_witness :
  snd (createBufferedStream failingWorld "https://youtu.be/x" 0 init)
  = Returned (mkAudio (mkProc 0 1) 0).
Proof.
  destruct (nonpositive_limit_returns_at_once 0
              [ProcError Downloader "spawn yt-dlp ENOENT"]) as (_ & _ & H); [lia|].
  exact (H failingWorld "https://youtu.be/x"%string init eq_refl).
Defined.

End BufferingLaws.

(** ** The command handler, continued *)

Section HandlerLaws.
Import Pipeline Bot.

Variable w : World.

Lemma play_found i st t u :
  isChatInputCommand i = true → commandName i = "music"%string →
  subcommand i = "play"%string → is_Some (voiceChannel i) →
  resolveSong w (query i) = Found t u →
  interactionCreate w i st = bufferAndEnqueue w (guildId i) t u st.
Proof.
  intros H1 H2 H3 [c Hc] Hr. rewrite (music_play w i st H1 H2 H3).
  unfold play. by rewrite Hc, Hr.
Qed.

(** X7: the first play request for a guild that has no session, when the
    search yields a song and the pre-buffer resolves, creates the session:
    a new voice connection and player, the song as the only queue entry
    with its two new processes bound as [playProcess], its stream handed to
    the player, one listener of each kind, and the reply "Now playing". *)
Theorem first_play_creates_session (i : Interaction) (st : State) (t u : string) :
  isChatInputCommand i = true → commandName i = "music"%string →
  subcommand i = "play"%string → is_Some (voiceChannel i) →
  resolveSong w (query i) = Found t u →
  settle (bufferLimit 5) (transcoding w u) = Resolved →
  queues st !! guildId i = None →
  let pid := nextPid st in
  interactionCreate w i st
  = (mkState (<[guildId i := mkServer (nextConn st) (mkPlayer (Some pid) 1 1)
                               [mkSong t u (Some (mkAudio (mkProc pid (S pid)) pid))]
                               (Some (mkProc pid (S pid)))]> (queues st))
             ({[S pid]} ∪ ({[pid]} ∪ running st)) (S (S pid))
             ({[nextConn st]} ∪ connections st) (S (nextConn st)) (immediates st),
     Replied (NowPlaying t)).
Proof.
  intros H1 H2 H3 Hv Hr Hok Hq pid. rewrite (play_found i st t u) by done.
  unfold bufferAndEnqueue. rewrite (createBufferedStream_resolved w u st Hok).
  unfold enqueue. simpl. rewrite Hq.
  set (song := mkSong _ _ _). set (server := mkServer _ _ [song] None).
  set (st1 := mkState _ _ _ _ _ _).
  rewrite (playSong_buffered w (guildId i) st1 server song []
             (mkAudio (mkProc pid (S pid)) pid)); [|apply lookup_insert_eq|done..].
  unfold startPlayback, set_queues. simpl. by rewrite insert_insert_eq.
Qed.

(** X8: whatever the request and whatever the search and the pipeline do,
    the handler changes the [queues] map only when it answers "Now playing"
    or "Added to the queue". *)
Theorem queue_changes_only_with_success_reply (i : Interaction) (st : State) :
  queues (fst (interactionCreate w i st)) = queues st ∨
  ∃ t, snd (interactionCreate w i st) = Replied (NowPlaying t) ∨
       snd (interactionCreate w i st) = Replied (AddedToQueue t).
Proof.
  unfold interactionCreate.
  destruct (negb (isChatInputCommand i)); [by left|].
  destruct (String.eqb (commandName i) "ping"); [by left|].
  destruct (String.eqb (commandName i) "hello"); [by left|].
  destruct (String.eqb (commandName i) "music"); [|by left].
  destruct (String.eqb (subcommand i) "play").
  - unfold play. destruct (voiceChannel i); [|by left].
    destruct (resolveSong w (query i)) as [t u| |]; [|by left..].
    unfold bufferAndEnqueue, createBufferedStream. simpl.
    destruct (settle _ _); [by left| |by left].
    right. exists t. unfold enqueue. simpl.
    destruct (queues st !! guildId i) as [server|] eqn:Hq; [by right|].
    set (song := mkSong _ _ _). set (server := mkServer _ _ [song] None).
    set (st1 := mkState _ _ _ _ _ _).
    rewrite (playSong_buffered w (guildId i) st1 server song []
               (mkAudio (mkProc (nextPid st) (S (nextPid st))) (nextPid st)));
      [|apply lookup_insert_eq|done..].
    by left.
  - destruct (String.eqb (subcommand i) "skip"); [|by left]. unfold skip.
    destruct (inScope _ _); by left.
Qed.

(** X9: for every registered subcommand other than [play] the handler
    leaves the state as it was; [skip] ends in the [ReferenceError], and
    [stop], [queue], [pause] and [resume] get no reply at all. *)
Theorem registered_subcommands_without_handler (i : Interaction) (st : State)
    (c : SlashCommand) (s : Subcommand) :
  isChatInputCommand i = true →
  c ∈ commands → cmdName c = commandName i →
  s ∈ cmdOptions c → subName s = subcommand i →
  subName s ≠ "play"%string →
  interactionCreate w i st
  = (st, if String.eqb (subName s) "skip" then ReferenceError "song" else NoReply).
Proof.
  intros H1 Hc Hn Hs Hsub Hplay. unfold interactionCreate. rewrite H1, <- Hn, <- Hsub.
  unfold commands in Hc. rewrite !elem_of_cons in Hc.
  destruct Hc as [->|[->|[->|Hc]]]; [by apply elem_of_nil in Hs..| |by apply elem_of_nil in Hc].
  simpl in *. rewrite !elem_of_cons in Hs.
  destruct Hs as [->|[->|[->|[->|[->|[->|Hs]]]]]]; try done.
  by apply elem_of_nil in Hs.
Qed.

End HandlerLaws.

Section UrlPattern.
Import Pipeline Bot.

Lemma toLower_idemp c : toLower (toLower c) = toLower c.
Proof. destruct c as [[] [] [] [] [] [] [] []]; reflexivity. Qed.

Lemma lowercase_idemp q : lowercase (lowercase q) = lowercase q.
Proof. induction q as [|c q IH]; simpl; [done|]. by rewrite toLower_idemp, IH. Qed.

Lemma lowercase_app a b : lowercase (a +:+ b) = lowercase a +:+ lowercase b.
Proof. induction a as [|c a IH]; simpl; [done|]. by rewrite IH. Qed.

Lemma prefix_app p : ∀ a b, String.prefix p a = true → String.prefix p (a +:+ b) = true.
Proof.
  induction p as [|c p IH]; intros a b H; [by destruct (a +:+ b)|].
  destruct a as [|d a]; simpl in *; [done|].
  destruct (ascii_dec c d); [|done]. by apply IH.
Qed.

(** X10: the link test does not depend on the case of the letters, and
    once a query matches, whatever is appended to it still matches. *)
Theorem isUrl_ignores_case_and_suffix (q s : string) :
  isUrl (lowercase q) = isUrl q ∧
  (isUrl q = true → isUrl (q +:+ s) = true).
Proof.
  split.
  - unfold isUrl. by rewrite lowercase_idemp.
  - unfold isUrl. rewrite !existsb_exists. intros (p & Hp & Hpre).
    exists p. split; [done|]. rewrite lowercase_app. by apply prefix_app.
Qed.

Lemma isUrl_ignores_case_and_suffix_witness :
  isUrl "HTTPS://WWW.YouTube.com/" = true ∧
  isUrl ("HTTPS://WWW.YouTube.com/" +:+ "watch?v=dWtqYlHneyI") = true.
Proof.
  split; [reflexivity|].
  exact (proj2 (isUrl_ignores_case_and_suffix "HTTPS://WWW.YouTube.com/"
                  "watch?v=dWtqYlHneyI") eq_refl).
Defined.

End UrlPattern.

(** ** [playSong] and the listeners, continued *)

Section PlaybackLaws.
Import Pipeline Bot.

Variable w : World.


Lemma song_eta song audio :
  buffer song = Some audio → mkSong (title song) (url song) (Some audio) = song.
Proof. destruct song; simpl; by intros ->. Qed.

Lemma playSong_unfold g fuel st :
  playSong_ (S fuel) w g st
  = match queues st !! g with
    | None => Some (set_queues (delete g (queues st)) st, Returned tt)
    | Some server =>
        match songs server with
        | [] => let st1 := destroy (connection server) st in
                Some (set_queues (delete g (queues st1)) st1, Returned tt)
        | song :: rest =>
            match buffer song with
            | Some audio => Some (startPlayback g server song rest audio st, Returned tt)
            | None =>
                match createBufferedStream w (url song) 5 st with
                | (st1, Returned audio) =>
                    Some (startPlayback g server song rest audio st1, Returned tt)
                | (st1, Threw _) =>
                    playSong_ fuel w g
                      (set_queues (<[g := set_songs rest server]> (queues st1)) st1)
                | (st1, Hung) => Some (st1, Hung)
                end
            end
        end
    end.
Proof. reflexivity. Qed.

(** More fuel does not change what [playSong_] returns. *)
Lemma playSong_fuel_S g : ∀ fuel st r,
  playSong_ fuel w g st = Some r → playSong_ (S fuel) w g st = Some r.
Proof.
  induction fuel as [|fuel IH]; intros st r H; [done|].
  rewrite playSong_unfold in H. rewrite playSong_unfold.
  destruct (queues st !! g) as [server|]; [|done].
  destruct (songs server) as [|song rest]; [done|].
  destruct (buffer song); [done|].
  destruct (createBufferedStream w (url song) 5 st) as [st1 [a| |]]; [done| |done].
  by apply IH.
Qed.

Lemma playSong_fuel_le g fuel fuel' st r :
  fuel ≤ fuel' → playSong_ fuel w g st = Some r → playSong_ fuel' w g st = Some r.
Proof.
  induction 1 as [|fuel' _ IH]; [done|]. intros H. by apply playSong_fuel_S, IH.
Qed.

Lemma playSong_Some g st :
  playSong_ (S (queueLength g st)) w g st = Some (playSong w g st).
Proof.
  destruct (playSong_total w g (S (queueLength g st)) st) as [r Hr]; [lia|].
  unfold playSong. by rewrite Hr.
Qed.

(** X20: for every state, [playSong] has returned (or is waiting for good
    on its one [await]) after at most one nested call per queued song and
    one more, and allowing more calls changes nothing. *)
Theorem playSong_bounded_by_queue (g : string) (st : State) (fuel : nat) :
  queueLength g st < fuel →
  playSong_ fuel w g st = Some (playSong w g st).
Proof.
  intros Hf. apply (playSong_fuel_le g (S (queueLength g st))); [lia|].
  apply playSong_Some.
Qed.



Lemma withoutBound_idemp server r :
  withoutBound server (withoutBound server r) = withoutBound server r.
Proof.
  unfold withoutBound. destruct (playProcess server) as [p|]; [|done].
  apply set_eq. intros x. rewrite !elem_of_difference. tauto.
Qed.

Lemma onIdle_state g st server :
  queues st !! g = Some server →
  onIdle g st
  = mkState (<[g := set_songs (tail (songs server)) server]> (queues st))
            (withoutBound server (running st)) (nextPid st)
            (connections st) (nextConn st) (immediates st ++ [g]).
Proof.
  intros Hq. unfold onIdle. rewrite Hq. unfold killPlayProcess, withoutBound.
  by destruct (playProcess server).
Qed.

Lemma replicate_snoc {A} (x : A) n : replicate n x ++ [x] = replicate (S n) x.
Proof. induction n as [|n IH]; simpl; [done|]. by rewrite IH. Qed.

Lemma iter_onIdle_state g n : ∀ st server,
  queues st !! g = Some server →
  Nat.iter (S n) (onIdle g) st
  = mkState (<[g := set_songs (drop (S n) (songs server)) server]> (queues st))
            (withoutBound server (running st)) (nextPid st)
            (connections st) (nextConn st) (immediates st ++ replicate (S n) g).
Proof.
  induction n as [|n IH]; intros st server Hq.
  - simpl. rewrite (onIdle_state g st server Hq). by destruct (songs server).
  - change (Nat.iter (S (S n)) (onIdle g) st) with (onIdle g (Nat.iter (S n) (onIdle g) st)).
    rewrite (IH st server Hq).
    rewrite (onIdle_state g _ (set_songs (drop (S n) (songs server)) server));
      [|apply lookup_insert_eq].
    simpl. f_equal.
    + rewrite insert_insert_eq. f_equal. unfold set_songs. simpl. f_equal.
      destruct (songs server) as [|s l]; [done|]. simpl. apply tail_drop.
    + apply (withoutBound_idemp server).
    + rewrite <- app_assoc. f_equal. apply (replicate_snoc g (S n)).
Qed.

Lemma emit_state g e st server :
  queues st !! g = Some server →
  let p := player server in
  let n := match e with Idle => idleOnce p | PlayerError => errorOnce p end in
  let p' := match e with
            | Idle => mkPlayer (resource p) 0 (errorOnce p)
            | PlayerError => mkPlayer (resource p) (idleOnce p) 0
            end in
  emit g e st
  = mkState (<[g := mkServer (connection server) p' (drop n (songs server))
                             (playProcess server)]> (queues st))
            (match n with 0 => running st | S _ => withoutBound server (running st) end)
            (nextPid st) (connections st) (nextConn st)
            (immediates st ++ replicate n g).
Proof.
  intros Hq p n p'. unfold emit. rewrite Hq. fold p.
  destruct e; subst n p'; cbn beta iota.
  - destruct (idleOnce p) as [|n].
    + simpl. by rewrite app_nil_r.
    + set (server' := mkServer _ _ _ _). set (st' := set_queues _ _).
      rewrite (iter_onIdle_state g n st' server'); [|apply lookup_insert_eq].
      simpl. by rewrite insert_insert_eq.
  - change (onError g) with (onIdle g).
    destruct (errorOnce p) as [|n].
    + simpl. by rewrite app_nil_r.
    + set (server' := mkServer _ _ _ _). set (st' := set_queues _ _).
      rewrite (iter_onIdle_state g n st' server'); [|apply lookup_insert_eq].
      simpl. by rewrite insert_insert_eq.
Qed.

(** X12: when a guild's player emits an event, every [once] listener
    registered for it runs: with [n] of them, [n] songs leave the head of
    the queue, [playSong] is scheduled [n] times, the bound pair is killed
    (if [n] is not zero), the listeners of that kind are gone and those of
    the other kind stay. *)
Theorem emit_runs_every_listener (g : string) (e : PlayerEvent) (st : State)
    (server : Server) :
  queues st !! g = Some server →
  let p := player server in
  let n := match e with Idle => idleOnce p | PlayerError => errorOnce p end in
  let p' := match e with
            | Idle => mkPlayer (resource p) 0 (errorOnce p)
            | PlayerError => mkPlayer (resource p) (idleOnce p) 0
            end in
  queues (emit g e st)
  = <[g := mkServer (connection server) p' (drop n (songs server)) (playProcess server)]>
      (queues st) ∧
  running (emit g e st)
  = (match n with 0 => running st | S _ => withoutBound server (running st) end) ∧
  immediates (emit g e st) = immediates st ++ replicate n g ∧
  nextPid (emit g e st) = nextPid st ∧
  connections (emit g e st) = connections st ∧
  nextConn (emit g e st) = nextConn st.
Proof.
  intros Hq p n p'. pose proof (emit_state g e st server Hq) as H.
  cbv zeta in H. fold p in H. fold n in H. fold p' in H. by rewrite H.
Qed.



(** [playSong] looks at one guild's entry only. *)
Lemma playSong_frame g g' : g' ≠ g → ∀ fuel st r,
  playSong_ fuel w g st = Some r → queues (fst r) !! g' = queues st !! g'.
Proof.
  intros Hne. induction fuel as [|fuel IH]; intros st r H; [done|].
  rewrite playSong_unfold in H.
  destruct (queues st !! g) as [server|] eqn:Hq.
  - destruct (songs server) as [|song rest].
    + injection H as <-. simpl. by rewrite lookup_delete_ne.
    + destruct (buffer song) as [audio|].
      * injection H as <-. simpl. by rewrite lookup_insert_ne.
      * unfold createBufferedStream in H. simpl in H.
        destruct (settle _ _).
        -- by injection H as <-.
        -- injection H as <-. simpl. by rewrite lookup_insert_ne.
        -- apply IH in H. rewrite H. simpl. by rewrite lookup_insert_ne.
  - injection H as <-. simpl. by rewrite lookup_delete_ne.
Qed.

Lemma interactionCreate_frame i st g' :
  g' ≠ guildId i → queues (fst (interactionCreate w i st)) !! g' = queues st !! g'.
Proof.
  intros Hne. unfold interactionCreate.
  destruct (negb (isChatInputCommand i)); [done|].
  destruct (String.eqb (commandName i) "ping"); [done|].
  destruct (String.eqb (commandName i) "hello"); [done|].
  destruct (String.eqb (commandName i) "music"); [|done].
  destruct (String.eqb (subcommand i) "play").
  - unfold play. destruct (voiceChannel i); [|done].
    destruct (resolveSong w (query i)) as [t u| |]; [|done..].
    unfold bufferAndEnqueue, createBufferedStream. simpl.
    destruct (settle _ _); [done| |done].
    unfold enqueue. simpl.
    destruct (queues st !! guildId i) as [server|] eqn:Hq.
    + simpl. by rewrite lookup_insert_ne.
    + set (song := mkSong _ _ _). set (server := mkServer _ _ [song] None).
      set (st1 := mkState _ _ _ _ _ _).
      rewrite (playSong_buffered w (guildId i) st1 server song []
                 (mkAudio (mkProc (nextPid st) (S (nextPid st))) (nextPid st)));
        [|apply lookup_insert_eq|done..].
      simpl. by rewrite !lookup_insert_ne.
  - destruct (String.eqb (subcommand i) "skip"); [|done]. unfold skip.
    by destruct (inScope _ _).
Qed.

(** X11: an event works on one guild; the [queues] entry of every other
    guild is the same after it. *)
Theorem other_guilds_are_untouched (st : State) (ev : Event) (g' : string) :
  eventGuild st ev ≠ Some g' →
  queues (step w st ev) !! g' = queues st !! g'.
Proof.
  intros Hne. destruct ev as [i|g e|]; simpl in *.
  - apply interactionCreate_frame. naive_solver.
  - assert (g' ≠ g) as Hg by naive_solver.
    destruct (queues st !! g) as [server|] eqn:Hq.
    + rewrite (emit_state g e st server Hq). simpl. by rewrite lookup_insert_ne.
    + unfold emit. by rewrite Hq.
  - destruct (immediates st) as [|g rest]; [done|]. simpl in Hne.
    assert (g' ≠ g) as Hg by naive_solver.
    set (st' := mkState _ _ _ _ _ _).
    rewrite (playSong_frame g g' Hg _ st' _ (playSong_Some g st')). done.
Qed.

End PlaybackLaws.

(** ** Songs played in queue order *)

Section RequestOrder.
Import Pipeline Bot.

Variable w : World.
Variable g : string.

Lemma exec_app evs evs' : exec w (evs ++ evs') = execFrom w (exec w evs) evs'.
Proof. unfold exec, execFrom. apply fold_left_app. Qed.

Lemma songFor_playable q pid :
  playable w q →
  ∃ t u, resolveSong w q = Found t u ∧
         settle (bufferLimit 5) (transcoding w u) = Resolved ∧
         songFor w q pid = mkSong t u (Some (mkAudio (mkProc pid (S pid)) pid)).
Proof.
  intros (t & u & Hr & Hs). exists t, u. unfold songFor. by rewrite Hr.
Qed.

Lemma play_state q st t u :
  resolveSong w q = Found t u →
  settle (bufferLimit 5) (transcoding w u) = Resolved →
  step w st (Command (playCommand g q))
  = fst (enqueue w g (mkSong t u (Some (mkAudio (mkProc (nextPid st) (S (nextPid st)))
                                          (nextPid st))))
           (mkState (queues st) ({[S (nextPid st)]} ∪ ({[nextPid st]} ∪ running st))
                    (S (S (nextPid st))) (connections st) (nextConn st) (immediates st))).
Proof.
  intros Hr Hs. simpl. unfold interactionCreate, play. simpl. rewrite Hr.
  unfold bufferAndEnqueue. by rewrite (createBufferedStream_resolved w u st Hs).
Qed.

Lemma first_request q :
  playable w q → step w init (Command (playCommand g q)) = playingState w g [q] 0.
Proof.
  intros Hq. destruct (songFor_playable q 0 Hq) as (t & u & Hr & Hs & Hsong).
  rewrite (play_state q init t u Hr Hs). unfold enqueue. simpl.
  rewrite lookup_empty.
  set (song := mkSong _ _ _). set (server := mkServer _ _ [song] None).
  set (st1 := mkState _ _ _ _ _ _).
  rewrite (playSong_buffered w g st1 server song [] (mkAudio (mkProc 0 1) 0));
    [|apply lookup_insert_eq|done..].
  unfold playingState, startPlayback, set_queues. simpl. rewrite Hsong.
  f_equal. by rewrite insert_insert_eq, insert_empty.
Qed.

Lemma play_existing q st server t u :
  resolveSong w q = Found t u →
  settle (bufferLimit 5) (transcoding w u) = Resolved →
  queues st !! g = Some server →
  step w st (Command (playCommand g q))
  = mkState (<[g := set_songs (songs server ++
                                [mkSong t u (Some (mkAudio (mkProc (nextPid st) (S (nextPid st)))
                                                     (nextPid st)))]) server]> (queues st))
            ({[S (nextPid st)]} ∪ ({[nextPid st]} ∪ running st))
            (S (S (nextPid st))) (connections st) (nextConn st) (immediates st).
Proof.
  intros Hr Hs Hq. rewrite (play_state q st t u Hr Hs). unfold enqueue.
  cbn [queues]. by rewrite Hq.
Qed.

Lemma next_request qs q :
  qs ≠ [] → playable w q →
  step w (playingState w g qs 0) (Command (playCommand g q))
  = playingState w g (qs ++ [q]) 0.
Proof.
  intros Hne Hq.
  destruct (songFor_playable q (2 * length qs) Hq) as (t & u & Hr & Hs & Hsong).
  erewrite (play_existing q _ _ t u Hr Hs); [|apply lookup_singleton_eq].
  unfold playingState, set_songs.
  cbn [queues running nextPid connections nextConn immediates
       connection player songs playProcess].
  rewrite !drop_0, imap_app, insert_singleton_eq, length_app, Nat.sub_0_r, <- Hsong.
  cbn [imap length Nat.add]. rewrite Nat.add_0_r, Nat.sub_0_r.
  f_equal.
  - apply set_eq. intros x.
    rewrite !elem_of_union, !elem_of_singleton, !elem_of_set_seq. lia.
  - lia.
Qed.

Lemma plays_snoc qs q : plays g (qs ++ [q]) = plays g qs ++ [Command (playCommand g q)].
Proof. unfold plays. by rewrite map_app. Qed.

Lemma requests_state qs :
  qs ≠ [] → Forall (playable w) qs → exec w (plays g qs) = playingState w g qs 0.
Proof.
  induction qs as [|q qs IH] using rev_ind; [done|]. intros _ Hf.
  apply Forall_app in Hf as [Hqs Hq]. rewrite Forall_singleton in Hq.
  rewrite plays_snoc, exec_app.
  change (execFrom w ?st [?ev]) with (step w st ev).
  destruct qs as [|q0 qs].
  - exact (first_request q Hq).
  - rewrite IH by done. by apply next_request.
Qed.

Lemma run_immediate st g0 rest :
  immediates st = g0 :: rest →
  step w st RunImmediate
  = fst (playSong w g0 (mkState (queues st) (running st) (nextPid st)
                                (connections st) (nextConn st) rest)).
Proof. intros H. simpl. by rewrite H. Qed.

Lemma songs_at qs k q :
  qs !! k = Some q →
  drop k (imap (fun i q => songFor w q (2 * i)) qs)
  = songFor w q (2 * k) :: drop (S k) (imap (fun i q => songFor w q (2 * i)) qs).
Proof.
  intros H. apply drop_S. by rewrite list_lookup_imap, H.
Qed.

Lemma completion_state qs k :
  S k < length qs → Forall (playable w) qs →
  execFrom w (playingState w g qs k) (completion g) = playingState w g qs (S k).
Proof.
  intros Hk Hf.
  destruct (lookup_lt_is_Some_2 qs k) as [q0 Hq0]; [lia|].
  destruct (lookup_lt_is_Some_2 qs (S k)) as [q1 Hq1]; [lia|].
  pose proof (proj1 (Forall_lookup _ _) Hf _ _ Hq1) as Hp1.
  destruct (songFor_playable q1 (2 * S k) Hp1) as (t & u & _ & _ & Hsong).
  change (execFrom w ?st (completion g))
    with (step w (step w st (PlayerEmits g Idle)) RunImmediate).
  change (step w ?st (PlayerEmits g Idle)) with (emit g Idle st).
  erewrite (emit_state g Idle (playingState w g qs k)); [|apply lookup_singleton_eq].
  unfold playingState at 1 2 3 4 5 6 7.
  cbn [queues running nextPid connections nextConn immediates
       connection player songs playProcess resource idleOnce errorOnce].
  rewrite insert_singleton_eq, drop_drop, (songs_at qs (k + 1) q1), app_nil_l;
    [|by rewrite Nat.add_1_r].
  erewrite run_immediate; [|reflexivity].
  cbn [queues running nextPid connections nextConn immediates].
  replace (k + 1) with (S k) by lia. rewrite Hsong.
  erewrite (playSong_buffered w g); [|apply lookup_singleton_eq|reflexivity|reflexivity].
  unfold startPlayback, set_queues, withoutBound, playingState.
  cbn [queues running nextPid connections nextConn immediates fst
       connection player songs playProcess resource idleOnce errorOnce
       title url buffer proc stream ytdlp ffmpeg].
  rewrite insert_singleton_eq, (songs_at qs (S k) q1 Hq1), Hsong.
  f_equal.
  apply set_eq. intros x. rewrite !elem_of_difference, !elem_of_singleton, !elem_of_set_seq.
  lia.
Qed.

Lemma last_completion_state qs k :
  length qs = S k →
  execFrom w (playingState w g qs k) (completion g) = finishedState qs.
Proof.
  intros Hk.
  change (execFrom w ?st (completion g))
    with (step w (step w st (PlayerEmits g Idle)) RunImmediate).
  change (step w ?st (PlayerEmits g Idle)) with (emit g Idle st).
  erewrite (emit_state g Idle (playingState w g qs k)); [|apply lookup_singleton_eq].
  unfold playingState.
  cbn [queues running nextPid connections nextConn immediates
       connection player songs playProcess resource idleOnce errorOnce].
  rewrite insert_singleton_eq, drop_drop, drop_ge, app_nil_l;
    [|rewrite length_imap; lia].
  erewrite run_immediate; [|reflexivity].
  cbn [queues running nextPid connections nextConn immediates].
  assert (∀ st server, queues st !! g = Some server → songs server = [] →
            playSong w g st
            = (set_queues (delete g (queues st)) (destroy (connection server) st),
               Returned tt)) as Hempty.
  { intros st server Hq Hs. unfold playSong, queueLength. rewrite Hq, Hs. simpl.
    by rewrite Hq, Hs. }
  erewrite Hempty; [|apply lookup_singleton_eq|reflexivity].
  unfold finishedState, set_queues, destroy, withoutBound.
  cbn [queues running nextPid connections nextConn immediates fst
       connection player songs playProcess].
  f_equal.
  - apply delete_singleton_eq.
  - apply set_eq. intros x.
    rewrite !elem_of_difference, !elem_of_singleton, !elem_of_set_seq, elem_of_empty.
    cbn [ytdlp ffmpeg]. lia.
Qed.

Lemma completions_S k : completions g (S k) = completions g k ++ completion g.
Proof.
  unfold completions. rewrite <- (replicate_snoc (completion g) k).
  by rewrite concat_app.
Qed.

Lemma completions_state qs k :
  k < length qs → Forall (playable w) qs →
  exec w (plays g qs ++ completions g k) = playingState w g qs k.
Proof.
  intros Hk Hf. induction k as [|k IH].
  - unfold completions. simpl. rewrite app_nil_r. apply requests_state; [|done].
    intros ->. simpl in Hk. lia.
  - rewrite completions_S, app_assoc, exec_app, IH by lia.
    by apply completion_state.
Qed.

(** One song ends on a session with one [Idle] listener and nothing
    scheduled: the bound pair is killed, the head leaves, and the scheduled
    [playSong] starts the song behind it. *)
Lemma completion_advances st server s s' rest audio' :
  queues st !! g = Some server → songs server = s :: s' :: rest →
  buffer s' = Some audio' →
  idleOnce (player server) = 1 → immediates st = [] →
  execFrom w st (completion g)
  = mkState (<[g := mkServer (connection server)
                     (mkPlayer (Some (stream audio')) 1 (S (errorOnce (player server))))
                     (s' :: rest) (Some (proc audio'))]> (queues st))
            (withoutBound server (running st)) (nextPid st)
            (connections st) (nextConn st) [].
Proof.
  intros Hq Hs Hb Hi Him.
  change (execFrom w st (completion g))
    with (step w (step w st (PlayerEmits g Idle)) RunImmediate).
  change (step w st (PlayerEmits g Idle)) with (emit g Idle st).
  rewrite (emit_state g Idle st server Hq). cbv zeta. rewrite Hi, Hs, Him.
  cbn [drop app replicate].
  erewrite run_immediate; [|reflexivity].
  cbn [queues running nextPid connections nextConn immediates].
  erewrite (playSong_buffered w g _ _ s' rest audio');
    [|apply lookup_insert_eq|reflexivity|exact Hb].
  unfold startPlayback, set_queues.
  cbn [queues running nextPid connections nextConn immediates fst
       connection player songs playProcess resource idleOnce errorOnce].
  by rewrite insert_insert_eq, (song_eta s' audio' Hb).
Qed.

Lemma completions_cons k : completions g (S k) = completion g ++ completions g k.
Proof. reflexivity. Qed.

Lemma songs_in_queue_order k : ∀ st server,
  queues st !! g = Some server →
  Forall (fun song => is_Some (buffer song)) (songs server) →
  idleOnce (player server) = 1 → immediates st = [] →
  S k < length (songs server) →
  ∃ server' song audio,
    queues (execFrom w st (completions g (S k))) !! g = Some server' ∧
    songs server' = drop (S k) (songs server) ∧
    songs server !! S k = Some song ∧ buffer song = Some audio ∧
    playProcess server' = Some (proc audio) ∧
    resource (player server') = Some (stream audio) ∧
    idleOnce (player server') = 1 ∧
    errorOnce (player server') = S k + errorOnce (player server) ∧
    immediates (execFrom w st (completions g (S k))) = [].
Proof.
  induction k as [|k IH]; intros st server Hq Hf Hi Him Hk.
  - destruct (songs server) as [|s [|s' rest]] eqn:Hs; simpl in Hk; try lia.
    apply Forall_cons in Hf as [_ Hf]. apply Forall_cons in Hf as [[audio' Hb] _].
    change (completions g 1) with (completion g ++ []). rewrite app_nil_r.
    rewrite (completion_advances st server s s' rest audio' Hq Hs Hb Hi Him).
    eexists _, s', audio'. cbn [queues immediates]. rewrite lookup_insert_eq.
    split; [reflexivity|]. by repeat split.
  - destruct (songs server) as [|s [|s' rest]] eqn:Hs; simpl in Hk; try lia.
    apply Forall_cons in Hf as [_ Hf]. pose proof Hf as Hf'.
    apply Forall_cons in Hf' as [[audio' Hb] _].
    rewrite completions_cons. unfold execFrom. rewrite fold_left_app.
    fold (execFrom w st (completion g)).
    rewrite (completion_advances st server s s' rest audio' Hq Hs Hb Hi Him).
    set (st1 := mkState _ _ _ _ _ _).
    fold (execFrom w st1 (completions g (S k))).
    destruct (IH st1 (mkServer (connection server)
                        (mkPlayer (Some (stream audio')) 1 (S (errorOnce (player server))))
                        (s' :: rest) (Some (proc audio'))))
      as (server' & song & audio & H1 & H2 & H3 & H4 & H5 & H6 & H7 & H8 & H9);
      [apply lookup_insert_eq|done|done|done|simpl; lia|].
    exists server', song, audio. simpl in *. repeat split; try done. lia.
Qed.

(** X13: songs are played in queue order. On a session with one [Idle]
    listener, nothing scheduled and a queue of buffered songs, after [k]+1
    song endings in a row the songs from position [k]+1 on are left in their
    order, and the song at position [k]+1 is the one handed to the player
    and the one whose pair is bound. *)
Theorem songs_play_in_queue_order (st : State) (server : Server) (k : nat) :
  queues st !! g = Some server →
  Forall (fun song => is_Some (buffer song)) (songs server) →
  idleOnce (player server) = 1 → immediates st = [] →
  S k < length (songs server) →
  ∃ server' song audio,
    queues (execFrom w st (completions g (S k))) !! g = Some server' ∧
    songs server' = drop (S k) (songs server) ∧
    songs server !! S k = Some song ∧ buffer song = Some audio ∧
    playProcess server' = Some (proc audio) ∧
    resource (player server') = Some (stream audio) ∧
    idleOnce (player server') = 1 ∧
    errorOnce (player server') = S k + errorOnce (player server) ∧
    immediates (execFrom w st (completions g (S k))) = [].
Proof. apply songs_in_queue_order. Qed.

(** X14: in such a run the end of the last song removes the session:
    the guild's entry is deleted, the voice connection is destroyed, no
    process is left running and nothing is scheduled. *)
Theorem end_of_last_song_tears_down (qs : list string) :
  Forall (playable w) qs → qs ≠ [] →
  exec w (plays g qs ++ completions g (length qs)) = finishedState qs.
Proof.
  intros Hf Hne. destruct (length qs) as [|k] eqn:Hl.
  { by destruct qs. }
  rewrite completions_S, app_assoc, exec_app, completions_state by (done || lia).
  by apply last_completion_state.
Qed.

End RequestOrder.

(** ** Reachable states *)

Section ReachableStates.
Import Pipeline Bot.

Variable w : World.

Lemma playSong_empty g st server :
  queues st !! g = Some server → songs server = [] →
  playSong w g st
  = (set_queues (delete g (queues st)) (destroy (connection server) st), Returned tt).
Proof.
  intros Hq Hs. unfold playSong, queueLength. rewrite Hq, Hs. simpl. by rewrite Hq, Hs.
Qed.

Lemma playSong_absent g st :
  queues st !! g = None →
  playSong w g st = (set_queues (delete g (queues st)) st, Returned tt).
Proof. intros Hq. unfold playSong, queueLength. rewrite Hq. simpl. by rewrite Hq. Qed.

(** X15: from a state the event loop can reach, [playSong] returns
    without waiting and neither spawns nor kills a process: every queued
    song already has its buffer, so the call of [createBufferedStream] in
    line 133 and the [catch] of lines 135-139 are not reached. *)
Theorem playSong_spawns_nothing_when_reachable (g : string) (st : State) :
  reachable w st →
  snd (playSong w g st) = Returned tt ∧
  running (fst (playSong w g st)) = running st ∧
  nextPid (fst (playSong w g st)) = nextPid st ∧
  immediates (fst (playSong w g st)) = immediates st.
Proof.
  intros Hr. pose proof (Consistent_reachable w st Hr) as C.
  destruct (queues st !! g) as [server|] eqn:Hq.
  - destruct (songs server) as [|song rest] eqn:Hs.
    + by rewrite (playSong_empty g st server Hq Hs).
    + destruct (cons_buffered st C g server song Hq) as [audio Hb].
      { rewrite Hs. apply list_elem_of_here. }
      by rewrite (playSong_buffered w g st server song rest audio Hq Hs Hb).
  - by rewrite (playSong_absent g st Hq).
Qed.

(** X16: in every reachable state a child process belongs to at most one
    queue position, and it was spawned by this program. *)
Theorem queued_songs_share_no_process (st : State) (g1 g2 : string) (k1 k2 pid : nat) :
  reachable w st →
  owns st g1 k1 pid → owns st g2 k2 pid →
  g1 = g2 ∧ k1 = k2 ∧ pid < nextPid st.
Proof.
  intros Hr H1 H2. pose proof (Consistent_reachable w st Hr) as C.
  destruct (cons_distinct st C g1 k1 g2 k2 pid H1 H2) as [-> ->].
  split; [done|]. split; [done|]. by apply (cons_fresh st C g2 k2).
Qed.

(** [playSong] leaves the guild without a session or with a song to play. *)
Lemma playSong_leaves_no_empty_queue g : ∀ fuel st r,
  playSong_ fuel w g st = Some r →
  immediates (fst r) = immediates st ∧
  ∀ server, queues (fst r) !! g = Some server → songs server ≠ [].
Proof.
  induction fuel as [|fuel IH]; intros st r H; [done|].
  rewrite playSong_unfold in H.
  destruct (queues st !! g) as [server|] eqn:Hq.
  - destruct (songs server) as [|song rest] eqn:Hs.
    + injection H as <-. simpl. split; [done|]. intros s. by rewrite lookup_delete_eq.
    + destruct (buffer song) as [audio|].
      * injection H as <-. simpl. split; [done|]. intros s.
        rewrite lookup_insert_eq. by intros [= <-].
      * unfold createBufferedStream in H. simpl in H.
        destruct (settle _ _).
        -- injection H as <-. simpl. split; [done|]. intros s. rewrite Hq.
           intros [= <-]. by rewrite Hs.
        -- injection H as <-. simpl. split; [done|]. intros s.
           rewrite lookup_insert_eq. by intros [= <-].
        -- by apply IH in H.
  - injection H as <-. simpl. split; [done|]. intros s. by rewrite lookup_delete_eq.
Qed.

Lemma teardownPending_interactionCreate i st :
  teardownPending st → teardownPending (fst (interactionCreate w i st)).
Proof.
  intros T. unfold interactionCreate.
  destruct (negb (isChatInputCommand i)); [done|].
  destruct (String.eqb (commandName i) "ping"); [done|].
  destruct (String.eqb (commandName i) "hello"); [done|].
  destruct (String.eqb (commandName i) "music"); [|done].
  destruct (String.eqb (subcommand i) "play").
  - unfold play. destruct (voiceChannel i); [|done].
    destruct (resolveSong w (query i)) as [t u| |]; [|done..].
    unfold bufferAndEnqueue, createBufferedStream. simpl.
    destruct (settle _ _); [done| |done].
    unfold enqueue. simpl.
    destruct (queues st !! guildId i) as [server|] eqn:Hq.
    + intros g s. simpl. intros [[<- <-]|[Hne Hg]]%lookup_insert_Some Hs.
      * simpl in Hs. by destruct (songs server).
      * by apply (T g s).
    + set (song := mkSong _ _ _). set (server := mkServer _ _ [song] None).
      set (st1 := mkState _ _ _ _ _ _).
      rewrite (playSong_buffered w (guildId i) st1 server song []
                 (mkAudio (mkProc (nextPid st) (S (nextPid st))) (nextPid st)));
        [|apply lookup_insert_eq|done..].
      intros g s. simpl. intros [[<- <-]|[Hne Hg]]%lookup_insert_Some Hs; [done|].
      apply lookup_insert_Some in Hg as [[? _]|[_ Hg]]; [done|]. by apply (T g s).
  - destruct (String.eqb (subcommand i) "skip"); [|done]. unfold skip.
    by destruct (inScope _ _).
Qed.

Lemma teardownPending_step st ev : teardownPending st → teardownPending (step w st ev).
Proof.
  intros T. destruct ev as [i|g e|]; simpl.
  - by apply teardownPending_interactionCreate.
  - destruct (queues st !! g) as [server|] eqn:Hq; [|unfold emit; by rewrite Hq].
    rewrite (emit_state g e st server Hq). intros g' s. simpl.
    intros [[<- <-]|[Hne Hg]]%lookup_insert_Some Hs.
    + simpl in Hs. rewrite elem_of_app.
      destruct (match e with Idle => idleOnce (player server)
                        | PlayerError => errorOnce (player server) end) as [|n].
      * left. apply (T g server Hq). by rewrite drop_0 in Hs.
      * right. apply list_elem_of_here.
    + rewrite elem_of_app. left. by apply (T g' s).
  - destruct (immediates st) as [|g rest] eqn:Him; [done|].
    set (st0 := mkState _ _ _ _ _ _).
    destruct (playSong_leaves_no_empty_queue g _ st0 _ (playSong_Some w g st0)) as [Hi Hne].
    intros g' s Hg Hs. rewrite Hi. simpl.
    destruct (decide (g' = g)) as [->|Hg'].
    + by destruct (Hne s Hg).
    + rewrite (playSong_frame w g g' Hg' _ st0 _ (playSong_Some w g st0)) in Hg.
      simpl in Hg. pose proof (T g' s Hg Hs) as Hin. rewrite Him in Hin.
      apply elem_of_cons in Hin as [?|?]; done.
Qed.

(** X21: in every reachable state a session whose queue is empty has a
    [playSong] call scheduled for its guild, which will remove it. *)
Theorem empty_queue_has_teardown_scheduled (st : State) (g : string) (server : Server) :
  reachable w st →
  queues st !! g = Some server → songs server = [] →
  g ∈ immediates st.
Proof.
  intros [evs <-]. revert g server. change (teardownPending (exec w evs)).
  unfold exec. assert (teardownPending init) as T0.
  { intros g s H. cbn [init queues] in H. by rewrite lookup_empty in H. }
  revert T0. generalize init.
  induction evs as [|ev evs IH]; intros st T; simpl; [done|].
  by apply IH, teardownPending_step.
Qed.

End ReachableStates.

(** ** Processes nothing refers to *)

Section Orphans.
Import Pipeline Bot.

Variable w : World.

Lemma orphaned_frame st st' pid :
  orphaned st pid →
  queues st' ⊆ queues st → (pid ∈ running st → pid ∈ running st') →
  nextPid st ≤ nextPid st' →
  orphaned st' pid.
Proof.
  intros (O1 & O2 & O3 & O4) Hq Hr Hn. split; [auto|]. split; [lia|]. split.
  - intros g k (server & song & H1 & H2 & H3). apply (O3 g k).
    exists server, song. split; [by eapply lookup_weaken|done].
  - intros g server p H1 H2. apply (O4 g server p); [by eapply lookup_weaken|done].
Qed.

Lemma orphaned_add st st' g server' song t u c pid :
  orphaned st pid →
  queues st' = <[g := server']> (queues st) →
  songs server' = match queues st !! g with Some s => songs s | None => [] end ++ [song] →
  playProcess server' = (queues st !! g) ≫= playProcess →
  song = mkSong t u (Some (mkAudio (mkProc (nextPid st) (S (nextPid st))) c)) →
  nextPid st' = S (S (nextPid st)) →
  running st ⊆ running st' →
  orphaned st' pid.
Proof.
  intros (O1 & O2 & O3 & O4) Hq Hs Hp Hsong Hn Hr.
  split; [by apply Hr|]. split; [lia|]. split.
  - intros g' k H. destruct (owns_insert _ _ _ _ _ _ _ Hq H) as [[-> (s & H1 & H2)]|[_ H1]];
      [|by apply (O3 g' k)].
    rewrite Hs in H1. apply lookup_app_Some in H1 as [H1|[Hlen H1]].
    + destruct (queues st !! g) as [srv|] eqn:E; [|by rewrite lookup_nil in H1].
      apply (O3 g k). by exists srv, s.
    + apply list_lookup_singleton_Some in H1 as [_ <-].
      rewrite Hsong in H2. unfold songPids in H2. simpl in H2.
      apply list_elem_of_In in H2. destruct H2 as [<-|[<-|[]]]; lia.
  - intros g' srv p H1 H2. rewrite Hq in H1.
    apply lookup_insert_Some in H1 as [[<- <-]|[Hne H1]]; [|by apply (O4 g' srv p)].
    rewrite Hp in H2. destruct (queues st !! g) as [srv|] eqn:E; [|done].
    by apply (O4 g srv p).
Qed.

Lemma orphaned_rebind st st' g server server' pid :
  orphaned st pid →
  queues st !! g = Some server →
  queues st' = <[g := server']> (queues st) →
  songs server' = songs server →
  (∀ p, playProcess server' = Some p →
        playProcess server = Some p ∨
        ∃ song audio, songs server !! 0 = Some song ∧ buffer song = Some audio ∧
                      p = proc audio) →
  running st ⊆ running st' → nextPid st ≤ nextPid st' →
  orphaned st' pid.
Proof.
  intros (O1 & O2 & O3 & O4) Hg Hq Hs Hp Hr Hn.
  split; [by apply Hr|]. split; [lia|]. split.
  - intros g' k H. destruct (owns_insert _ _ _ _ _ _ _ Hq H) as [[-> (s & H1 & H2)]|[_ H1]];
      [|by apply (O3 g' k)].
    rewrite Hs in H1. apply (O3 g k). by exists server, s.
  - intros g' srv p H1 H2. rewrite Hq in H1.
    apply lookup_insert_Some in H1 as [[<- <-]|[Hne H1]]; [|by apply (O4 g' srv p)].
    destruct (Hp _ H2) as [H3|(song & audio & H3 & H4 & ->)]; [by apply (O4 g server p)|].
    split; intros ->; apply (O3 g 0); exists server, song;
      (split; [done|]); (split; [done|]); unfold songPids; rewrite H4.
    + apply list_elem_of_here.
    + apply list_elem_of_further, list_elem_of_here.
Qed.

Lemma orphaned_onIdle st g pid : orphaned st pid → orphaned (onIdle g st) pid.
Proof.
  intros O. destruct (queues st !! g) as [server|] eqn:Hg.
  - rewrite (onIdle_state g st server Hg). destruct O as (O1 & O2 & O3 & O4).
    split; [|split; [done|split]].
    + simpl. unfold withoutBound. destruct (playProcess server) as [p|] eqn:Hp; [|done].
      destruct (O4 g server p Hg Hp).
      rewrite !elem_of_difference, !elem_of_singleton. done.
    + intros g' k H.
      apply (owns_insert st _ g (set_songs (tail (songs server)) server)) in H;
        [|reflexivity].
      destruct H as [[-> (s & H1 & H2)]|[_ H1]]; [|by apply (O3 g' k)].
      simpl in H1. rewrite lookup_tail_S in H1. apply (O3 g (S k)). by exists server, s.
    + intros g' srv p. simpl. intros [[<- <-]|[Hne H1]]%lookup_insert_Some H2.
      * by apply (O4 g server p).
      * by apply (O4 g' srv p).
  - unfold onIdle. rewrite Hg. by apply (orphaned_frame st).
Qed.

Lemma orphaned_iter_onIdle g n st pid :
  orphaned st pid → orphaned (Nat.iter n (onIdle g) st) pid.
Proof. intros O. induction n as [|n IH]; simpl; [done|]. by apply orphaned_onIdle. Qed.

Lemma orphaned_emit g e st pid : orphaned st pid → orphaned (emit g e st) pid.
Proof.
  intros O. unfold emit. destruct (queues st !! g) as [server|] eqn:Hg; [|done].
  destruct e.
  - apply orphaned_iter_onIdle.
    eapply (orphaned_rebind st _ g server); [done..| |done|done].
    intros p Hp. by left.
  - change (onError g) with (onIdle g). apply orphaned_iter_onIdle.
    eapply (orphaned_rebind st _ g server); [done..| |done|done].
    intros p Hp. by left.
Qed.

Lemma orphaned_startPlayback g st server song rest audio pid :
  orphaned st pid →
  queues st !! g = Some server → songs server = song :: rest →
  buffer song = Some audio →
  orphaned (startPlayback g server song rest audio st) pid.
Proof.
  intros O Hg Hs Hb.
  eapply (orphaned_rebind st _ g server); [done|done|reflexivity| | |done|done].
  - simpl. rewrite Hs. f_equal. by apply song_eta.
  - simpl. intros p [= <-]. right. exists song, audio. by rewrite Hs.
Qed.


Lemma orphaned_bufferAndEnqueue g t u st pid :
  orphaned st pid → orphaned (fst (bufferAndEnqueue w g t u st)) pid.
Proof.
  intros O. unfold bufferAndEnqueue, createBufferedStream. simpl.
  destruct (settle _ _).
  - apply (orphaned_frame st); simpl; [done|done| |lia].
    intros Hx. rewrite !elem_of_union. auto.
  - set (song := mkSong _ _ _). unfold enqueue. simpl.
    destruct (queues st !! g) as [server|] eqn:Hg.
    + simpl. eapply (orphaned_add st _ g _ song); [done|reflexivity| | |reflexivity|done|].
      * by rewrite Hg.
      * by rewrite Hg.
      * simpl. intros x. rewrite !elem_of_union. tauto.
    + set (server := mkServer (nextConn st) (mkPlayer None 0 0) [song] None).
      set (st1 := mkState _ _ _ _ _ _).
      assert (orphaned st1 pid) as O1.
      { eapply (orphaned_add st st1 g server song); [done|reflexivity| | |reflexivity|done|].
        - by rewrite Hg.
        - by rewrite Hg.
        - simpl. intros x. rewrite !elem_of_union. tauto. }
      rewrite (playSong_buffered w g st1 server song []
                 (mkAudio (mkProc (nextPid st) (S (nextPid st))) (nextPid st)));
        [|apply lookup_insert_eq|done..].
      simpl. apply orphaned_startPlayback; [done|apply lookup_insert_eq|done..].
  - apply (orphaned_frame st); simpl; [done|done| |lia].
    intros Hx. rewrite !elem_of_union. auto.
Qed.

Lemma orphaned_interactionCreate i st pid :
  orphaned st pid → orphaned (fst (interactionCreate w i st)) pid.
Proof.
  intros O. unfold interactionCreate.
  destruct (negb (isChatInputCommand i)); [done|].
  destruct (String.eqb (commandName i) "ping"); [done|].
  destruct (String.eqb (commandName i) "hello"); [done|].
  destruct (String.eqb (commandName i) "music"); [|done].
  destruct (String.eqb (subcommand i) "play").
  - unfold play. destruct (voiceChannel i); [|done].
    destruct (resolveSong w (query i)); [|done..]. by apply orphaned_bufferAndEnqueue.
  - destruct (String.eqb (subcommand i) "skip"); [|done]. unfold skip. by destruct (inScope _ _).
Qed.




End Orphans.

(** ** Processes nothing refers to, with overlapping handlers *)

Section OverlappingHandlers.
Import Pipeline Bot.

Variable w : World.

(** A song whose processes are not [pid] goes to the tail of a queue. *)
Lemma orphaned_push st st' g server server' song pid :
  orphaned st pid →
  queues st !! g = Some server →
  queues st' = <[g := server']> (queues st) →
  songs server' = songs server ++ [song] →
  playProcess server' = playProcess server →
  pid ∉ songPids song →
  running st ⊆ running st' → nextPid st ≤ nextPid st' →
  orphaned st' pid.
Proof.
  intros (O1 & O2 & O3 & O4) Hg Hq Hs Hp Hsong Hr Hn.
  split; [by apply Hr|]. split; [lia|]. split.
  - intros g' k H. destruct (owns_insert _ _ _ _ _ _ _ Hq H) as [[-> (s & H1 & H2)]|[_ H1]];
      [|by apply (O3 g' k)].
    rewrite Hs in H1. apply lookup_app_Some in H1 as [H1|[Hlen H1]].
    + apply (O3 g k). by exists server, s.
    + apply list_lookup_singleton_Some in H1 as [_ <-]. done.
  - intros g' srv p H1 H2. rewrite Hq in H1.
    apply lookup_insert_Some in H1 as [[<- <-]|[Hne H1]]; [|by apply (O4 g' srv p)].
    rewrite Hp in H2. by apply (O4 g server p).
Qed.

(** A session is created for a song whose processes are not [pid]. *)
Lemma orphaned_open st st' g server' song pid :
  orphaned st pid →
  queues st !! g = None →
  queues st' = <[g := server']> (queues st) →
  songs server' = [song] → playProcess server' = None →
  pid ∉ songPids song →
  running st ⊆ running st' → nextPid st ≤ nextPid st' →
  orphaned st' pid.
Proof.
  intros (O1 & O2 & O3 & O4) Hg Hq Hs Hp Hsong Hr Hn.
  split; [by apply Hr|]. split; [lia|]. split.
  - intros g' k H. destruct (owns_insert _ _ _ _ _ _ _ Hq H) as [[-> (s & H1 & H2)]|[_ H1]];
      [|by apply (O3 g' k)].
    rewrite Hs in H1. apply list_lookup_singleton_Some in H1 as [_ <-]. done.
  - intros g' srv p H1 H2. rewrite Hq in H1.
    apply lookup_insert_Some in H1 as [[<- <-]|[Hne H1]]; [|by apply (O4 g' srv p)].
    by rewrite Hp in H2.
Qed.

Lemma orphaned_enqueue g t u audio st pid :
  orphaned st pid →
  pid ≠ ytdlp (proc audio) → pid ≠ ffmpeg (proc audio) →
  orphaned (fst (enqueue w g (mkSong t u (Some audio)) st)) pid.
Proof.
  intros O Hy Hf. set (song := mkSong t u (Some audio)).
  assert (pid ∉ songPids song) as Hs.
  { unfold songPids. simpl. intros H. apply list_elem_of_In in H.
    destruct H as [<-|[<-|[]]]; done. }
  unfold enqueue. destruct (queues st !! g) as [server|] eqn:Hg.
  - simpl. by eapply (orphaned_push st _ g server _ song).
  - set (server := mkServer (nextConn st) (mkPlayer None 0 0) [song] None).
    set (st1 := mkState _ _ _ _ _ _).
    assert (orphaned st1 pid) as O1.
    { by eapply (orphaned_open st st1 g server song). }
    rewrite (playSong_buffered w g st1 server song [] audio);
      [|apply lookup_insert_eq|done..].
    simpl. apply orphaned_startPlayback; [done|apply lookup_insert_eq|done..].
Qed.

(** [playSong] on any queue keeps an orphan an orphan. *)
Lemma orphaned_playSong_any g pid : ∀ fuel st r,
  orphaned st pid → playSong_ fuel w g st = Some r → orphaned (fst r) pid.
Proof.
  induction fuel as [|fuel IH]; intros st r O H; [done|].
  rewrite playSong_unfold in H.
  destruct (queues st !! g) as [server|] eqn:Hq.
  - destruct (songs server) as [|song rest] eqn:Hs.
    + injection H as <-. apply (orphaned_frame st); [done| |done..].
      simpl. apply delete_subseteq.
    + destruct (buffer song) as [audio|] eqn:Hb.
      * injection H as <-. by apply orphaned_startPlayback.
      * unfold createBufferedStream in H. simpl in H.
        set (st1 := mkState (queues st) _ _ _ _ _) in H.
        assert (pid < nextPid st) as Hlt by (by destruct O as (_ & ? & _)).
        assert (orphaned st1 pid) as O1.
        { apply (orphaned_frame st); simpl; [done|done| |lia].
          intros Hx. rewrite !elem_of_union. auto. }
        destruct (settle _ _).
        -- by injection H as <-.
        -- injection H as <-. destruct O1 as (P1 & P2 & P3 & P4). simpl in P2.
           split; [done|]. split; [done|]. split.
           ++ intros g' k Ho.
              apply (owns_insert st1 _ g
                       (mkServer (connection server)
                          (mkPlayer (Some (nextPid st)) (S (idleOnce (player server)))
                                    (S (errorOnce (player server))))
                          (mkSong (title song) (url song)
                             (Some (mkAudio (mkProc (nextPid st) (S (nextPid st)))
                                      (nextPid st))) :: rest)
                          (Some (mkProc (nextPid st) (S (nextPid st)))))) in Ho;
                [|reflexivity].
              destruct Ho as [[-> (s & H1 & H2)]|[_ H1]]; [|by apply (P3 g' k)].
              destruct k as [|k]; simpl in H1.
              ** injection H1 as <-. unfold songPids in H2. simpl in H2.
                 apply list_elem_of_In in H2. destruct H2 as [<-|[<-|[]]]; lia.
              ** apply (P3 g (S k)). exists server, s. rewrite Hs. done.
           ++ intros g' srv p. simpl.
              intros [[<- <-]|[Hne H1]]%lookup_insert_Some H2.
              ** simpl in H2. injection H2 as <-. simpl. lia.
              ** by apply (P4 g' srv p).
        -- apply (IH _ _) in H; [done|].
           destruct O1 as (P1 & P2 & P3 & P4).
           split; [done|]. split; [done|]. split.
           ++ intros g' k Ho.
              apply (owns_insert st1 _ g (set_songs rest server)) in Ho; [|reflexivity].
              destruct Ho as [[-> (s & H1 & H2)]|[_ H1]]; [|by apply (P3 g' k)].
              simpl in H1. apply (P3 g (S k)). exists server, s. rewrite Hs. done.
           ++ intros g' srv p. simpl.
              intros [[<- <-]|[Hne H1]]%lookup_insert_Some H2.
              ** by apply (P4 g server p).
              ** by apply (P4 g' srv p).
  - injection H as <-. apply (orphaned_frame st); [done| |done..].
    simpl. apply delete_subseteq.
Qed.

Lemma unreferenced_step l ev pid :
  Overlap.unreferenced l pid → Overlap.unreferenced (Overlap.step w l ev) pid.
Proof.
  intros [O Hw]. destruct ev as [i|n|g e|]; simpl.
  - unfold Overlap.searched. destruct (Overlap.isPlay i).
    + destruct (voiceChannel i); [|done].
      destruct (resolveSong w (query i)) as [t u| |]; [|done..].
      simpl. split.
      * apply (orphaned_frame (Overlap.base l)); simpl; [done|done| |lia].
        intros Hx. rewrite !elem_of_union. auto.
      * simpl. intros h [Hh|Hh]%elem_of_app; [by apply Hw|].
        apply list_elem_of_singleton in Hh as ->. unfold Overlap.holds. simpl.
        destruct O as (_ & O2 & _). lia.
    + split; [by apply orphaned_interactionCreate|done].
  - unfold Overlap.resumed.
    destruct (Overlap.waiting l !! n) as [h|] eqn:Hn; [|done].
    assert (∀ h', h' ∈ delete n (Overlap.waiting l) → ¬ Overlap.holds h' pid) as Hw'.
    { intros h' Hh'. apply Hw. by eapply list_elem_of_delete_inv. }
    destruct (settle _ _); [done| |done].
    split; [|done]. simpl.
    assert (¬ Overlap.holds h pid) as Hh.
    { apply Hw. by eapply list_elem_of_lookup_2. }
    apply orphaned_enqueue; [done|..]; intros ->; apply Hh; [by left|by right].
  - split; [|done]. simpl. by apply orphaned_emit.
  - split; [|done]. simpl.
    destruct (immediates (Overlap.base l)) as [|g rest]; [done|].
    set (st0 := mkState _ _ _ _ _ _).
    apply (orphaned_playSong_any g pid _ st0 _ (orphaned_frame (Overlap.base l) st0 pid O
             (reflexivity _) (fun H => H) (reflexivity _)) (playSong_Some w g st0)).
Qed.

Lemma unreferenced_execFrom evs : ∀ l pid,
  Overlap.unreferenced l pid → Overlap.unreferenced (Overlap.execFrom w l evs) pid.
Proof.
  induction evs as [|ev evs IH]; intros l pid U; [done|].
  apply (IH (Overlap.step w l ev)). by apply unreferenced_step.
Qed.

(** One handler that runs alone is the atomic handler of [Bot.step]. *)
Lemma handler_alone st ws i :
  Overlap.base (Overlap.execFrom w (Overlap.mkLoop st ws)
                  [Overlap.Searched i; Overlap.Buffered (length ws)])
  = step w st (Command i).
Proof.
  simpl. unfold Overlap.searched, Overlap.isPlay, interactionCreate.
  destruct (isChatInputCommand i); simpl.
  - destruct (String.eqb (commandName i) "music") eqn:Hm; simpl.
    + destruct (String.eqb (subcommand i) "play") eqn:Hp; simpl.
      * assert (String.eqb (commandName i) "ping" = false) as ->.
        { apply String.eqb_eq in Hm. by rewrite Hm. }
        assert (String.eqb (commandName i) "hello" = false) as ->.
        { apply String.eqb_eq in Hm. by rewrite Hm. }
        unfold play. destruct (voiceChannel i).
        -- destruct (resolveSong w (query i)) as [t u| |].
           ++ unfold Overlap.resumed, bufferAndEnqueue, createBufferedStream. simpl.
              rewrite lookup_app_r, Nat.sub_diag by done. simpl.
              destruct (settle _ _); done.
           ++ unfold Overlap.resumed. simpl. by rewrite lookup_ge_None_2.
           ++ unfold Overlap.resumed. simpl. by rewrite lookup_ge_None_2.
        -- unfold Overlap.resumed. simpl. by rewrite lookup_ge_None_2.
      * unfold Overlap.resumed. simpl. by rewrite lookup_ge_None_2.
    + unfold Overlap.resumed. simpl. by rewrite lookup_ge_None_2.
  - unfold Overlap.resumed. simpl. by rewrite lookup_ge_None_2.
Qed.

(** *** Every queued song carries its buffer *)

Lemma allBuffered_insert st st' g server' :
  Overlap.allBuffered st →
  queues st' = <[g := server']> (queues st) →
  (∀ song, song ∈ songs server' → is_Some (buffer song)) →
  Overlap.allBuffered st'.
Proof.
  intros A Hq Hs g' srv song H1 H2. rewrite Hq in H1.
  apply lookup_insert_Some in H1 as [[<- <-]|[Hne H1]]; [by apply Hs|].
  by apply (A g' srv song).
Qed.

Lemma allBuffered_frame st st' :
  Overlap.allBuffered st → queues st' ⊆ queues st → Overlap.allBuffered st'.
Proof.
  intros A Hq g srv song H1 H2. apply (A g srv song); [|done].
  by eapply lookup_weaken.
Qed.

Lemma allBuffered_startPlayback g st server song rest audio :
  Overlap.allBuffered st →
  queues st !! g = Some server → songs server = song :: rest →
  Overlap.allBuffered (startPlayback g server song rest audio st).
Proof.
  intros A Hq Hs. eapply (allBuffered_insert st); [done|reflexivity|].
  simpl. intros s [->|Hin]%elem_of_cons; [by eexists|].
  apply (A g server s Hq). rewrite Hs. by apply list_elem_of_further.
Qed.

Lemma allBuffered_playSong g : ∀ fuel st r,
  Overlap.allBuffered st → playSong_ fuel w g st = Some r → Overlap.allBuffered (fst r).
Proof.
  induction fuel as [|fuel IH]; intros st r A H; [done|].
  rewrite playSong_unfold in H.
  destruct (queues st !! g) as [server|] eqn:Hq.
  - destruct (songs server) as [|song rest] eqn:Hs.
    + injection H as <-. apply (allBuffered_frame st); [done|]. simpl. apply delete_subseteq.
    + destruct (A g server song Hq) as [audio Hb]; [rewrite Hs; apply list_elem_of_here|].
      rewrite Hb in H. injection H as <-. by apply allBuffered_startPlayback.
  - injection H as <-. apply (allBuffered_frame st); [done|]. simpl. apply delete_subseteq.
Qed.

Lemma allBuffered_enqueue g song st :
  Overlap.allBuffered st → is_Some (buffer song) →
  Overlap.allBuffered (fst (enqueue w g song st)).
Proof.
  intros A [audio Hb]. unfold enqueue. destruct (queues st !! g) as [server|] eqn:Hg.
  - simpl. eapply (allBuffered_insert st); [done|reflexivity|].
    simpl. intros s [Hin|Hin]%elem_of_app; [by apply (A g server s)|].
    apply list_elem_of_singleton in Hin as ->. by eexists.
  - set (server := mkServer _ _ _ _). set (st1 := mkState _ _ _ _ _ _).
    rewrite (playSong_buffered w g st1 server song [] audio);
      [|apply lookup_insert_eq|done..].
    simpl. apply allBuffered_startPlayback; [|apply lookup_insert_eq|done].
    eapply (allBuffered_insert st); [done|reflexivity|].
    simpl. intros s Hin. apply list_elem_of_singleton in Hin as ->. by eexists.
Qed.

Lemma allBuffered_onIdle g st : Overlap.allBuffered st → Overlap.allBuffered (onIdle g st).
Proof.
  intros A. destruct (queues st !! g) as [server|] eqn:Hg.
  - rewrite (onIdle_state g st server Hg).
    eapply (allBuffered_insert st); [done|reflexivity|].
    simpl. intros s Hin. apply (A g server s Hg).
    destruct (songs server); [done|]. by apply list_elem_of_further.
  - unfold onIdle. rewrite Hg. by apply (allBuffered_frame st).
Qed.

Lemma allBuffered_emit g e st : Overlap.allBuffered st → Overlap.allBuffered (emit g e st).
Proof.
  intros A. unfold emit. destruct (queues st !! g) as [server|] eqn:Hg; [|done].
  assert (∀ n st0, Overlap.allBuffered st0 → Overlap.allBuffered (Nat.iter n (onIdle g) st0))
    as Hiter.
  { induction n as [|n IH]; intros st0 A0; simpl; [done|]. by apply allBuffered_onIdle, IH. }
  destruct e; [|change (onError g) with (onIdle g)]; apply Hiter;
    (eapply (allBuffered_insert st); [done|reflexivity|]); simpl; intros s Hin;
    by apply (A g server s).
Qed.

Lemma allBuffered_step l ev :
  Overlap.allBuffered (Overlap.base l) →
  Overlap.allBuffered (Overlap.base (Overlap.step w l ev)).
Proof.
  intros A. destruct ev as [i|n|g e|]; simpl.
  - unfold Overlap.searched. destruct (Overlap.isPlay i) eqn:Hp.
    + destruct (voiceChannel i); [|done].
      destruct (resolveSong w (query i)) as [t u| |]; [|done..].
      simpl. by apply (allBuffered_frame (Overlap.base l)).
    + simpl. unfold interactionCreate, Overlap.isPlay in *.
      destruct (isChatInputCommand i); simpl in *; [|done].
      destruct (String.eqb (commandName i) "ping"); [done|].
      destruct (String.eqb (commandName i) "hello"); [done|].
      destruct (String.eqb (commandName i) "music"); [|done].
      simpl in Hp. rewrite Hp. unfold skip.
      destruct (String.eqb (subcommand i) "skip"); [|done].
      by destruct (inScope skipScope "song").
  - unfold Overlap.resumed. destruct (Overlap.waiting l !! n) as [h|]; [|done].
    destruct (settle _ _); [done| |done].
    simpl. apply allBuffered_enqueue; [done|by eexists].
  - by apply allBuffered_emit.
  - destruct (immediates (Overlap.base l)) as [|g rest]; [done|].
    set (st0 := mkState _ _ _ _ _ _).
    apply (allBuffered_playSong g _ st0 _ (allBuffered_frame (Overlap.base l) st0 A
             (reflexivity _)) (playSong_Some w g st0)).
Qed.

(** At every state of the event loop the queued songs carry their buffers,
    so no [playSong] started by [setImmediate] reaches the [await] of line
    133: the handlers waiting on line 197 are the only suspended calls. *)
Lemma reachable_allBuffered l :
  Overlap.reachable w l → Overlap.allBuffered (Overlap.base l).
Proof.
  intros [evs <-]. unfold Overlap.execFrom. rewrite <- (rev_involutive evs).
  induction (rev evs) as [|ev evs' IH]; simpl.
  - intros g srv song H. unfold Overlap.initial, init in H. simpl in H.
    by rewrite lookup_empty in H.
  - rewrite fold_left_app. simpl. by apply allBuffered_step.
Qed.

(** X18: play handlers may overlap. A handler that waits on line 197 has
    spawned its two processes and holds them in its frame; it ends by
    queueing them (lines 204-229) or by dropping them (line 199). At every
    state of this event loop, a running process that no queued song holds,
    no session has bound and no waiting handler holds is never killed:
    whichever handlers finish their search or their buffering, whatever the
    players emit and whichever scheduled [playSong] runs, the process is
    still running and still unreferenced. *)
Theorem unreferenced_process_is_never_killed (l : Overlap.Loop) (pid : nat)
    (evs : list Overlap.Event) :
  Overlap.reachable w l →
  Overlap.unreferenced l pid →
  Overlap.unreferenced (Overlap.execFrom w l evs) pid ∧
  pid ∈ running (Overlap.base (Overlap.execFrom w l evs)).
Proof.
  intros _ U. pose proof (unreferenced_execFrom evs l pid U) as U'.
  split; [done|]. by destruct U' as [(? & _) _].
Qed.

End OverlappingHandlers.

(** ** The laws at sample inputs *)

Section LawExamples.
Import Pipeline Bot.

Ltac by_decide :=
  lazymatch goal with
  | |- ?P => apply (@bool_decide_unpack P _); vm_compute; exact I
  end.

Lemma demo_playable q : isUrl q = false → playable demoWorld q.
Proof.
  intros H. exists q, ("https://youtu.be/" +:+ q)%string.
  unfold resolveSong. rewrite H. split; reflexivity.
Defined.

Lemma first_play_creates_session_witness :
  interactionCreate demoWorld (playCommand "G" "a") init
  = (mkState {[ "G"%string := mkServer 0 (mkPlayer (Some 0) 1 1)
                                [mkSong "a" "https://youtu.be/a"
                                        (Some (mkAudio (mkProc 0 1) 0))]
                                (Some (mkProc 0 1)) ]}
             {[1; 0]} 2 {[0]} 1 [],
     Replied (NowPlaying "a")).
Proof.
  rewrite (first_play_creates_session demoWorld (playCommand "G" "a") init
             "a" "https://youtu.be/a" eq_refl eq_refl eq_refl
             (ex_intro _ 1 eq_refl) eq_refl eq_refl eq_refl).
  reflexivity.
Defined.

Lemma registered_subcommands_without_handler_witness :
  interactionCreate demoWorld (mkInteraction true "music" "G" None "stop" "") init
  = (init, NoReply).
Proof.
  apply (registered_subcommands_without_handler demoWorld
           (mkInteraction true "music" "G" None "stop" "") init
           (mkSlashCommand "music"
              [ mkSubcommand "play" ["query"]; mkSubcommand "skip" [];
                mkSubcommand "stop" []; mkSubcommand "queue" [];
                mkSubcommand "pause" []; mkSubcommand "resume" [] ])
           (mkSubcommand "stop" []));
    first [reflexivity | discriminate | repeat constructor].
Defined.

Lemma other_guilds_are_untouched_witness :
  let st := exec demoWorld [Command (playCommand "G" "a")] in
  queues (step demoWorld st (Command (playCommand "H" "b"))) !! "G"%string
  = queues st !! "G"%string.
Proof.
  apply (other_guilds_are_untouched demoWorld
           (exec demoWorld [Command (playCommand "G" "a")])
           (Command (playCommand "H" "b")) "G").
  discriminate.
Defined.

Lemma emit_runs_every_listener_witness :
  let st := exec demoWorld (threeSongs ++ [PlayerEmits "G" Idle; RunImmediate]) in
  (songs <$> queues (emit "G" PlayerError st) !! "G"%string) = Some [] ∧
  immediates (emit "G" PlayerError st) = ["G"; "G"]%string.
Proof.
  set (st := exec demoWorld (threeSongs ++ [PlayerEmits "G" Idle; RunImmediate])).
  destruct (emit_runs_every_listener "G" PlayerError st
              (mkServer 0 (mkPlayer (Some 2) 1 2)
                 [mkSong "b" "https://youtu.be/b" (Some (mkAudio (mkProc 2 3) 2));
                  mkSong "c" "https://youtu.be/c" (Some (mkAudio (mkProc 4 5) 4))]
                 (Some (mkProc 2 3))) eq_refl) as (H1 & _ & H2 & _).
  split.
  - rewrite H1, lookup_insert_eq. reflexivity.
  - rewrite H2. reflexivity.
Defined.



Lemma playSong_bounded_by_queue_witness :
  playSong_ 5 failingWorld "G" unbufferedQueue
  = Some (playSong failingWorld "G" unbufferedQueue).
Proof.
  apply (playSong_bounded_by_queue failingWorld "G" unbufferedQueue 5).
  vm_compute. lia.
Defined.

Lemma songs_play_in_queue_order_witness :
  let st := exec demoWorld threeSongs in
  ∃ server',
    queues (execFrom demoWorld st (completions "G" 2)) !! "G"%string = Some server' ∧
    songs server' = [mkSong "c" "https://youtu.be/c" (Some (mkAudio (mkProc 4 5) 4))] ∧
    playProcess server' = Some (mkProc 4 5).
Proof.
  intros st.
  destruct (songs_play_in_queue_order demoWorld "G" st
              (mkServer 0 (mkPlayer (Some 0) 1 1)
                 [mkSong "a" "https://youtu.be/a" (Some (mkAudio (mkProc 0 1) 0));
                  mkSong "b" "https://youtu.be/b" (Some (mkAudio (mkProc 2 3) 2));
                  mkSong "c" "https://youtu.be/c" (Some (mkAudio (mkProc 4 5) 4))]
                 (Some (mkProc 0 1))) 1 eq_refl)
    as (server' & song & audio & H1 & H2 & H3 & H4 & H5 & _).
  - repeat constructor; by eexists.
  - reflexivity.
  - reflexivity.
  - simpl. lia.
  - exists server'. split; [exact H1|]. split; [exact H2|].
    simpl in H3. injection H3 as <-. simpl in H4. injection H4 as <-. exact H5.
Defined.

Lemma end_of_last_song_tears_down_witness :
  exec demoWorld (plays "G" ["a"; "b"]%string ++ completions "G" 2)
  = finishedState ["a"; "b"]%string.
Proof.
  apply (end_of_last_song_tears_down demoWorld "G" ["a"; "b"]%string).
  - repeat constructor; by apply demo_playable.
  - discriminate.
Defined.

Lemma playSong_spawns_nothing_when_reachable_witness :
  let st := exec demoWorld [Command (playCommand "G" "a")] in
  snd (playSong demoWorld "G" st) = Returned tt ∧
  running (fst (playSong demoWorld "G" st)) = running st.
Proof.
  destruct (playSong_spawns_nothing_when_reachable demoWorld "G"
              (exec demoWorld [Command (playCommand "G" "a")])
              (ex_intro _ [Command (playCommand "G" "a")] eq_refl)) as (H1 & H2 & _).
  split; [exact H1|exact H2].
Defined.

Lemma queued_songs_share_no_process_witness :
  let st := exec demoWorld [Command (playCommand "G" "a")] in
  owns st "G" 0 1 ∧ 1 < nextPid st.
Proof.
  set (st := exec demoWorld [Command (playCommand "G" "a")]).
  assert (owns st "G" 0 1) as Ho.
  { exists (mkServer 0 (mkPlayer (Some 0) 1 1)
              [mkSong "a" "https://youtu.be/a" (Some (mkAudio (mkProc 0 1) 0))]
              (Some (mkProc 0 1))),
           (mkSong "a" "https://youtu.be/a" (Some (mkAudio (mkProc 0 1) 0))).
    split; [reflexivity|]. split; [reflexivity|]. repeat constructor. }
  split; [exact Ho|].
  exact (proj2 (proj2 (queued_songs_share_no_process demoWorld st "G" "G" 0 0 1
                         (ex_intro _ [Command (playCommand "G" "a")] eq_refl) Ho Ho))).
Defined.

Lemma empty_queue_has_teardown_scheduled_witness :
  let st := exec demoWorld [Command (playCommand "G" "a"); PlayerEmits "G" Idle] in
  (songs <$> queues st !! "G"%string) = Some [] ∧ "G"%string ∈ immediates st.
Proof.
  split; [reflexivity|].
  apply (empty_queue_has_teardown_scheduled demoWorld
           (exec demoWorld [Command (playCommand "G" "a"); PlayerEmits "G" Idle]) "G"
           (mkServer 0 (mkPlayer (Some 0) 0 1) [] (Some (mkProc 0 1)))
           (ex_intro _ [Command (playCommand "G" "a"); PlayerEmits "G" Idle] eq_refl)
           eq_refl eq_refl).
Defined.

Lemma unreferenced_process_is_never_killed_witness :
  let l := Overlap.execFrom demoWorld Overlap.initial
             [Overlap.Searched (playCommand "G" "a"); Overlap.Buffered 0;
              Overlap.Searched (playCommand "G" "b");
              Overlap.Searched (playCommand "G" "c");
              Overlap.Buffered 1; Overlap.Buffered 0;
              Overlap.Emits "G" Idle; Overlap.Immediate;
              Overlap.Emits "G" PlayerError;
              Overlap.Searched (playCommand "G" "d")] in
  let evs := [Overlap.Buffered 0; Overlap.Immediate; Overlap.Immediate;
              Overlap.Emits "G" Idle] in
  Overlap.reachable demoWorld l ∧ Overlap.unreferenced l 2 ∧
  Overlap.waiting l
  = [Overlap.mkWaiting "G" "d" "https://youtu.be/d" (mkAudio (mkProc 6 7) 6)] ∧
  2 ∈ running (Overlap.base (Overlap.execFrom demoWorld l evs)) ∧
  6 ∉ running (Overlap.base (Overlap.execFrom demoWorld l evs)).
Proof.
  intros l evs.
  assert (Overlap.reachable demoWorld l) as Hr by (by eexists).
  assert (Overlap.unreferenced l 2) as Hu.
  { assert (queues (Overlap.base l)
            = {[ "G"%string := mkServer 0 (mkPlayer (Some 4) 1 0) []
                                 (Some (mkProc 4 5)) ]}) as Hq by (by vm_compute).
    split; [split; [by_decide|split; [vm_compute; lia|split]]|].
    - intros g k (server & song & H1 & H2 & _). rewrite Hq in H1.
      apply lookup_singleton_Some in H1 as [_ <-]. by destruct k.
    - intros g server p H1 H2. rewrite Hq in H1.
      apply lookup_singleton_Some in H1 as [_ <-]. injection H2 as <-. simpl. lia.
    - intros h Hh [H|H]; vm_compute in Hh; apply list_elem_of_singleton in Hh;
        subst h; discriminate. }
  split; [exact Hr|]. split; [exact Hu|]. split; [reflexivity|].
  split; [|by_decide].
  exact (proj2 (unreferenced_process_is_never_killed demoWorld l 2 evs Hr Hu)).
Defined.


End LawExamples.
